(** * ddsp.training: data providers and the run dispatcher

    A shallow embedding of [ddsp/training/data.py] and
    [ddsp/training/ddsp_run.py].

    The Python code is glue over two external libraries: the [tf.data]
    input pipeline and the [gin] configuration system.  Their documented
    behaviour is written out in the modules [Tf] and [Gin]; the modules
    [Data] and [DdspRun] follow the two source files line by line on top
    of them. *)

From Stdlib Require Import ZArith Lia Ascii.
From stdpp Require Import base option list strings gmap fin_maps.

Local Open Scope string_scope.

(** ** Python exceptions and fallible computations *)

Inductive exn : Type :=
| NotImplementedError
| KeyError (key : string)
| IndexError
| TypeError
| ValueError
| InvalidArgumentError
| IOError (path : string)
| RuntimeError.

Inductive result (A : Type) : Type :=
| Ok (a : A)
| Raise (e : exn).
Arguments Ok {A} a.
Arguments Raise {A} e.

#[global] Instance result_ret : MRet result := fun A a => Ok a.
#[global] Instance result_bind : MBind result := fun A B f m =>
  match m with
  | Ok a => f a
  | Raise e => Raise e
  end.
#[global] Instance result_fmap : FMap result := fun A B f m =>
  match m with
  | Ok a => Ok (f a)
  | Raise e => Raise e
  end.

Definition is_Ok {A} (r : result A) : Prop := ∃ a, r = Ok a.

(** [mapR f l] applies a fallible function to every element, left to
    right, and stops at the first exception. *)
Fixpoint mapR {A B} (f : A → result B) (l : list A) : result (list B) :=
  match l with
  | [] => Ok []
  | a :: l' => b ← f a; bs ← mapR f l'; Ok (b :: bs)
  end.

(** ** Sources of randomness

    A shuffling stage draws random numbers, and every new iterator over a
    dataset is seeded afresh.  An [Entropy] is an oracle addressed by a
    path: [draw e i] is the [i]-th number an iterator seeded with [e]
    draws, and [fork e k] seeds the [k]-th iterator created below it. *)

Definition Entropy : Type := list nat → nat.

Definition draw (e : Entropy) (i : nat) : nat := e [i].
Definition fork (e : Entropy) (k : nat) : Entropy := fun p => e (S k :: p).

(** ** tf.data *)

Module Tf.

(** One call of an iterator's [GetNext]. *)
Inductive Step (A S : Type) : Type :=
| Yield (a : A) (s : S)
| EndOfSequence
| Fail (e : exn).
Arguments Yield {A S} a s.
Arguments EndOfSequence {A S}.
Arguments Fail {A S} e.

(** A [tf.data.Dataset]: a recipe for iterators.  Nothing is read until
    an iterator is made and advanced. *)
Record Dataset (A : Type) : Type := mkDataset {
  Iter : Type;
  make_iterator : Entropy → Iter;
  get_next : Iter → Step A Iter;
}.
Arguments mkDataset {A} Iter make_iterator get_next.
Arguments Iter {A} d.
Arguments make_iterator {A} d e.
Arguments get_next {A} d it.

(** [tf.data.experimental.AUTOTUNE] *)
Definition AUTOTUNE : Z := (-1)%Z.

(** The first [n] elements an iterator produces; iteration stops early at
    the end of the sequence and at an exception. *)
Fixpoint pull {A} (d : Dataset A) (n : nat) (it : Iter d) : list A :=
  match n with
  | O => []
  | S n' =>
      match get_next d it with
      | Yield a it' => a :: pull d n' it'
      | EndOfSequence => []
      | Fail _ => []
      end
  end.

(** The first [n] elements of one run over the dataset. *)
Definition elements {A} (d : Dataset A) (e : Entropy) (n : nat) : list A :=
  pull d n (make_iterator d e).

(** [drains d it l]: advancing [it] yields exactly the elements of [l],
    without an exception, and then reports the end of the sequence. *)
Inductive drains {A} (d : Dataset A) : Iter d → list A → Prop :=
| drains_end it :
    get_next d it = EndOfSequence → drains d it []
| drains_yield it a it' l :
    get_next d it = Yield a it' → drains d it' l → drains d it (a :: l).

(** [yields d it l it']: advancing [it] yields the elements of [l], one
    after the other, and leaves the iterator at [it']. *)
Inductive yields {A} (d : Dataset A) : Iter d → list A → Iter d → Prop :=
| yields_nil it : yields d it [] it
| yields_cons it a it' l it'' :
    get_next d it = Yield a it' → yields d it' l it'' →
    yields d it (a :: l) it''.

(** [input_rest d inp rest]: a stage whose input iterator is [inp] ([None]
    once the input has ended) still has the elements [rest] to read. *)
Definition input_rest {A} (d : Dataset A) (inp : option (Iter d))
    (rest : list A) : Prop :=
  match inp with
  | Some it => drains d it rest
  | None => rest = []
  end.

(** A dataset over an in-memory list of elements
    ([Dataset.from_tensor_slices]); it stands for the records of a file
    or of a catalogue split. *)
Definition from_list {A} (l : list A) : Dataset A :=
  mkDataset (list A) (fun _ => l)
    (fun it => match it with
               | [] => EndOfSequence
               | a :: it' => Yield a it'
               end).

(** [Dataset.map(map_func, num_parallel_calls)].  The calls may run
    concurrently, but results are delivered in input order. *)
Definition map {A B} (map_func : A → result B) (num_parallel_calls : Z)
    (d : Dataset A) : Dataset B :=
  mkDataset (Iter d) (make_iterator d)
    (fun it => match get_next d it with
               | Yield a it' =>
                   match map_func a with
                   | Ok b => Yield b it'
                   | Raise e => Fail e
                   end
               | EndOfSequence => EndOfSequence
               | Fail e => Fail e
               end).

(** *** shuffle *)

(** The iterator of [Dataset.shuffle]: the buffer, the input iterator
    ([None] once the input has ended), the seed and the number of random
    numbers drawn so far. *)
Record ShuffleIter (A S : Type) : Type := mkShuffleIter {
  sh_buffer : list A;
  sh_input : option S;
  sh_seed : Entropy;
  sh_drawn : nat;
}.
Arguments mkShuffleIter {A S} _ _ _ _.
Arguments sh_buffer {A S} _.
Arguments sh_input {A S} _.
Arguments sh_seed {A S} _.
Arguments sh_drawn {A S} _.

(** Fill the buffer from the input until it holds [buffer_size] elements
    or the input ends; [room] is the number of free slots. *)
Fixpoint fill {A} (d : Dataset A) (room : nat) (buf : list A) (it : Iter d)
  : result (list A * option (Iter d)) :=
  match room with
  | O => Ok (buf, Some it)
  | S room' =>
      match get_next d it with
      | Yield a it' => fill d room' (buf ++ [a]) it'
      | EndOfSequence => Ok (buf, None)
      | Fail e => Raise e
      end
  end.

(** Produce a uniformly chosen element of the buffer; the first element
    of the buffer moves into the freed slot. *)
Definition pick {A} (buf : list A) (r : nat) : option (A * list A) :=
  match buf with
  | [] => None
  | first :: _ =>
      let i := r `mod` length buf in
      match buf !! i with
      | Some a => Some (a, tail (<[i := first]> buf))
      | None => None
      end
  end.

Definition shuffle_next {A} (d : Dataset A) (buffer_size : nat)
    (it : ShuffleIter A (Iter d)) : Step A (ShuffleIter A (Iter d)) :=
  let filled :=
    match sh_input it with
    | Some inp => fill d (buffer_size - length (sh_buffer it)) (sh_buffer it) inp
    | None => Ok (sh_buffer it, None)
    end in
  match filled with
  | Raise e => Fail e
  | Ok (buf, inp) =>
      match pick buf (draw (sh_seed it) (sh_drawn it)) with
      | Some (a, buf') =>
          Yield a (mkShuffleIter buf' inp (sh_seed it) (S (sh_drawn it)))
      | None => EndOfSequence
      end
  end.

(** The shuffled dataset; every new iterator is seeded afresh, so every
    iteration is reshuffled. *)
Definition shuffle_dataset {A} (d : Dataset A) (buffer_size : nat) : Dataset A :=
  mkDataset (ShuffleIter A (Iter d))
    (fun e => mkShuffleIter [] (Some (make_iterator d (fork e 0))) e 0)
    (shuffle_next d buffer_size).

(** [Dataset.shuffle(buffer_size)].  A buffer size below one is
    rejected. *)
Definition shuffle {A} (buffer_size : Z) (d : Dataset A) : result (Dataset A) :=
  if (buffer_size <? 1)%Z then Raise InvalidArgumentError
  else Ok (shuffle_dataset d (Z.to_nat buffer_size)).

(** *** repeat *)

(** The iterator of [Dataset.repeat]: the number of completed passes, the
    current input iterator, whether that iterator has produced nothing
    yet, and the seed the passes are seeded from. *)
Record RepeatIter (S : Type) : Type := mkRepeatIter {
  rp_pass : nat;
  rp_input : S;
  rp_first_call : bool;
  rp_seed : Entropy;
}.
Arguments mkRepeatIter {S} _ _ _ _.
Arguments rp_pass {S} _.
Arguments rp_input {S} _.
Arguments rp_first_call {S} _.
Arguments rp_seed {S} _.

(** [count] passes: when the input ends, the next pass starts, until
    [count] passes are complete; [left] is [count - pass]. *)
Fixpoint finite_next {A} (d : Dataset A) (left : nat) (pass : nat)
    (inp : Iter d) (seed : Entropy) : Step A (RepeatIter (Iter d)) :=
  match left with
  | O => EndOfSequence
  | S left' =>
      match get_next d inp with
      | Yield a inp' => Yield a (mkRepeatIter pass inp' false seed)
      | EndOfSequence =>
          finite_next d left' (S pass) (make_iterator d (fork seed (S pass))) seed
      | Fail e => Fail e
      end
  end.

(** Endless passes.  A pass that ends before producing anything ends the
    whole sequence (otherwise the iterator would spin forever on an
    empty input). *)
Definition forever_next {A} (d : Dataset A) (it : RepeatIter (Iter d))
  : Step A (RepeatIter (Iter d)) :=
  match get_next d (rp_input it) with
  | Yield a inp' => Yield a (mkRepeatIter (rp_pass it) inp' false (rp_seed it))
  | Fail e => Fail e
  | EndOfSequence =>
      if rp_first_call it then EndOfSequence
      else
        let pass := S (rp_pass it) in
        match get_next d (make_iterator d (fork (rp_seed it) pass)) with
        | Yield a inp' => Yield a (mkRepeatIter pass inp' false (rp_seed it))
        | Fail e => Fail e
        | EndOfSequence => EndOfSequence
        end
  end.

(** [Dataset.repeat(count)]: a negative [count] repeats indefinitely. *)
Definition repeat {A} (count : Z) (d : Dataset A) : Dataset A :=
  mkDataset (RepeatIter (Iter d))
    (fun e => mkRepeatIter 0 (make_iterator d (fork e 0)) true e)
    (fun it =>
       if (count <? 0)%Z then forever_next d it
       else finite_next d (Z.to_nat count - rp_pass it) (rp_pass it)
              (rp_input it) (rp_seed it)).

(** *** batch *)

(** Collect up to [n] more elements into the batch under construction
    ([acc], newest first). *)
Fixpoint collect {A} (d : Dataset A) (drop_remainder : bool) (n : nat)
    (acc : list A) (it : Iter d) : Step (list A) (option (Iter d)) :=
  match n with
  | O => Yield (rev acc) (Some it)
  | S n' =>
      match get_next d it with
      | Yield a it' => collect d drop_remainder n' (a :: acc) it'
      | EndOfSequence =>
          match acc with
          | [] => EndOfSequence
          | _ :: _ =>
              if drop_remainder then EndOfSequence
              else Yield (rev acc) None
          end
      | Fail e => Fail e
      end
  end.

(** The batched dataset; once the input has ended ([None]) nothing more
    is produced. *)
Definition batch_dataset {A} (d : Dataset A) (drop_remainder : bool)
    (batch_size : nat) : Dataset (list A) :=
  mkDataset (option (Iter d))
    (fun e => Some (make_iterator d e))
    (fun it => match it with
               | Some inp => collect d drop_remainder batch_size [] inp
               | None => EndOfSequence
               end).

(** [Dataset.batch(batch_size, drop_remainder)].  A batch size below one
    is rejected. *)
Definition batch {A} (batch_size : Z) (drop_remainder : bool) (d : Dataset A)
  : result (Dataset (list A)) :=
  if (batch_size <? 1)%Z then Raise InvalidArgumentError
  else Ok (batch_dataset d drop_remainder (Z.to_nat batch_size)).

(** [Dataset.prefetch(buffer_size)] reads ahead; the sequence of elements
    is unchanged. *)
Definition prefetch {A} (buffer_size : Z) (d : Dataset A) : Dataset A := d.

End Tf.

(** ** tf.parse_single_example *)

Module TfExample.

(** A [float32] value, as its bit pattern. *)
Definition float32 : Type := Z.

Inductive DType : Type := DT_FLOAT | DT_INT64 | DT_STRING.

(** The value of one feature of a [tf.Example]. *)
Inductive Feature : Type :=
| BytesList (value : list string)
| FloatList (value : list float32)
| Int64List (value : list Z).

(** A decoded [tf.Example]: feature name to feature. *)
Abbreviation Example := (gmap string Feature).

(** [tf.FixedLenFeature(shape, dtype)], without a default value.  A
    dimension written [None] in Python is [None] here. *)
Record FixedLenFeature : Type := mkFixedLenFeature {
  shape : list (option Z);
  dtype : DType;
}.

(** A dense tensor: its shape and its values in row-major order. *)
Record Tensor : Type := mkTensor {
  t_shape : list Z;
  t_values : Feature;
}.

Definition feature_dtype (f : Feature) : DType :=
  match f with
  | BytesList _ => DT_STRING
  | FloatList _ => DT_FLOAT
  | Int64List _ => DT_INT64
  end.

Definition feature_size (f : Feature) : nat :=
  match f with
  | BytesList v => length v
  | FloatList v => length v
  | Int64List v => length v
  end.

Definition dtype_eqb (a b : DType) : bool :=
  match a, b with
  | DT_FLOAT, DT_FLOAT | DT_INT64, DT_INT64 | DT_STRING, DT_STRING => true
  | _, _ => false
  end.

(** The shape with every dimension known, or [None]. *)
Fixpoint fully_defined (s : list (option Z)) : option (list Z) :=
  match s with
  | [] => Some []
  | None :: _ => None
  | Some n :: s' => ns ← fully_defined s'; Some (n :: ns)
  end.

Definition num_elements (s : list Z) : Z := foldr Z.mul 1%Z s.

(** The feature specification is checked before any record is looked at:
    every dimension of a [FixedLenFeature] must be known. *)
Fixpoint check_features (features : list (string * FixedLenFeature))
  : result (list (string * (list Z * DType))) :=
  match features with
  | [] => Ok []
  | (key, f) :: rest =>
      match fully_defined (shape f) with
      | None => Raise ValueError
      | Some s => fs ← check_features rest; Ok ((key, (s, dtype f)) :: fs)
      end
  end.

(** One dense feature of a record: the key must be present, of the
    declared type, and hold exactly as many values as the declared shape
    has elements. *)
Definition parse_dense (ex : Example) (key : string) (s : list Z) (t : DType)
  : result Tensor :=
  match ex !! key with
  | None => Raise InvalidArgumentError
  | Some f =>
      if negb (dtype_eqb (feature_dtype f) t) then Raise InvalidArgumentError
      else if negb (Z.of_nat (feature_size f) =? num_elements s)%Z
           then Raise InvalidArgumentError
           else Ok (mkTensor s f)
  end.

(** A value passed to a TensorFlow function: a scalar string, such as a
    serialized record, or a numeric tensor. *)
Inductive Value : Type :=
| StringTensor (s : string)
| NumericTensor (t : Tensor).

Section Parse.
(** Decoding of the protocol-buffer wire format ([Example.ParseFromString]);
    [None] for bytes that are not an encoded [tf.Example]. *)
Variable decode : string → option Example.

(** [tf.parse_single_example(serialized, features)]; [serialized] must be
    a string. *)
Definition parse_single_example (serialized : Value)
    (features : list (string * FixedLenFeature))
  : result (list (string * Tensor)) :=
  specs ← check_features features;
  match serialized with
  | NumericTensor _ => Raise TypeError
  | StringTensor bytes =>
      match decode bytes with
      | None => Raise InvalidArgumentError
      | Some ex =>
          mapR (fun '(key, (s, t)) => v ← parse_dense ex key s t; Ok (key, v))
            specs
      end
  end.
End Parse.

End TfExample.

(** ** data.py *)

Module Data.
Import Tf TfExample.

(** *** class DataProvider *)

(** An object of a [DataProvider] class: the two methods subclasses
    override.  [get_batch] and [get_input_fn] are defined once, for every
    subclass, in terms of them. *)
Record DataProvider (Raw Rec : Type) : Type := mkDataProvider {
  get_dataset : bool → result (Dataset Raw);
  get_preprocess_fn : Raw → result Rec;
}.
Arguments mkDataProvider {Raw Rec} _ _.
Arguments get_dataset {Raw Rec} _ _.
Arguments get_preprocess_fn {Raw Rec} _ _.

(** The base class itself: [get_dataset] raises, the preprocessing
    function is [lambda x: x]. *)
Definition DataProvider_base (A : Type) : DataProvider A A :=
  mkDataProvider (fun shuffle => Raise NotImplementedError) (fun x => Ok x).

Definition get_batch {Raw Rec} (self : DataProvider Raw Rec)
    (batch_size : Z) (shuffle : bool) (repeats : Z)
  : result (Dataset (list Rec)) :=
  let autotune := AUTOTUNE in
  dataset ← get_dataset self shuffle;
  let dataset := Tf.map (get_preprocess_fn self) autotune dataset in
  dataset ← (if shuffle then Tf.shuffle (10 * 1000) dataset else Ok dataset);
  let dataset := Tf.repeat repeats dataset in
  dataset ← Tf.batch batch_size true dataset;
  let dataset := Tf.prefetch autotune dataset in
  Ok dataset.

(** [params['batch_size']] *)
Definition getitem {V} (d : gmap string V) (key : string) : result V :=
  match d !! key with
  | Some v => Ok v
  | None => Raise (KeyError key)
  end.

Definition get_input_fn {Raw Rec} (self : DataProvider Raw Rec)
    (shuffle : bool) (repeats : Z)
  : gmap string Z → result (Dataset (list Rec * list Rec)) :=
  let map_fn := fun ex : list Rec => (ex, ex) in
  let input_fn := fun params : gmap string Z =>
    batch_size ← getitem params "batch_size";
    dataset ← get_batch self batch_size shuffle repeats;
    let dataset := Tf.map (fun ex => Ok (map_fn ex)) AUTOTUNE dataset in
    Ok dataset in
  input_fn.

(** *** class TfdsProvider *)

Record TfdsProvider : Type := mkTfdsProvider {
  name : string;
  split : string;
  data_dir : string;
}.

Section Tfds.
Context {Raw : Type}.
(** [tfds.load(name, data_dir, split, shuffle_files, download)] *)
Variable tfds_load : string → string → string → bool → bool → result (Dataset Raw).

Definition TfdsProvider_get_dataset (self : TfdsProvider) (shuffle : bool)
  : result (Dataset Raw) :=
  tfds_load (name self) (data_dir self) (split self) shuffle false.
End Tfds.

(** *** class NSynthTfds *)

(** A record of the catalogue: a tensor, or a dictionary of records. *)
#[local] Unset Elimination Schemes.
Inductive pyval (T : Type) : Type :=
| PTensor (t : T)
| PDict (items : list (string * pyval T)).
#[local] Set Elimination Schemes.
Arguments PTensor {T} t.
Arguments PDict {T} items.

Fixpoint assoc {V} (key : string) (items : list (string * V)) : option V :=
  match items with
  | [] => None
  | (k, v) :: rest => if String.eqb k key then Some v else assoc key rest
  end.

(** [ex[key]]: a dictionary without the key raises [KeyError]; a tensor
    cannot be indexed by a string. *)
Definition subscript {T} (ex : pyval T) (key : string) : result (pyval T) :=
  match ex with
  | PDict items =>
      match assoc key items with
      | Some v => Ok v
      | None => Raise (KeyError key)
      end
  | PTensor _ => Raise TypeError
  end.

Definition NSynthTfds_default : TfdsProvider :=
  mkTfdsProvider "nsynth/gansynth_subset.f0_and_loudness:2.3.0" "train"
    "gs://tfds-data/datasets".

(** The constructor; the [bool] tells whether the warning about the
    public bucket was logged. *)
Definition NSynthTfds_init (name split data_dir : string) : TfdsProvider * bool :=
  (mkTfdsProvider name split data_dir,
   bool_decide (data_dir = "gs://tfds-data/datasets")).

Definition preprocess_ex {T} (ex : pyval T) : result (pyval T) :=
  pitch ← subscript ex "pitch";
  audio ← subscript ex "audio";
  instrument_source ← subscript ex "instrument" ≫= (fun d => subscript d "source");
  instrument_family ← subscript ex "instrument" ≫= (fun d => subscript d "family");
  instrument ← subscript ex "instrument" ≫= (fun d => subscript d "label");
  f0_hz ← subscript ex "f0" ≫= (fun d => subscript d "hz");
  f0_confidence ← subscript ex "f0" ≫= (fun d => subscript d "confidence");
  loudness_db ← subscript ex "loudness" ≫= (fun d => subscript d "db");
  Ok (PDict [("pitch", pitch);
             ("audio", audio);
             ("instrument_source", instrument_source);
             ("instrument_family", instrument_family);
             ("instrument", instrument);
             ("f0_hz", f0_hz);
             ("f0_confidence", f0_confidence);
             ("loudness_db", loudness_db)]).

Section NSynth.
Context {T : Type}.
Variable tfds_load :
  string → string → string → bool → bool → result (Dataset (pyval T)).

Definition NSynthTfds (self : TfdsProvider) : DataProvider (pyval T) (pyval T) :=
  mkDataProvider (TfdsProvider_get_dataset tfds_load self) preprocess_ex.
End NSynth.

(** *** class TFRecordProvider *)

(** What a subclass of [TFRecordProvider] may override. *)
Record TFRecordClass : Type := mkTFRecordClass {
  default_file_pattern : result string;
  features_dict : list (string * FixedLenFeature);
}.

Definition TFRecordProvider_class : TFRecordClass :=
  mkTFRecordClass
    (Raise NotImplementedError)
    [("audio", mkFixedLenFeature [None] DT_FLOAT);
     ("f0_hz", mkFixedLenFeature [None] DT_FLOAT);
     ("f0_confidence", mkFixedLenFeature [None] DT_FLOAT);
     ("loudness_db", mkFixedLenFeature [None] DT_FLOAT)].

(** [SoloInstrument] overrides [features_dict] only. *)
Definition SoloInstrument_class : TFRecordClass :=
  mkTFRecordClass
    (default_file_pattern TFRecordProvider_class)
    [("audio", mkFixedLenFeature [Some 64000%Z] DT_FLOAT);
     ("f0_hz", mkFixedLenFeature [Some 1000%Z] DT_FLOAT);
     ("f0_confidence", mkFixedLenFeature [Some 1000%Z] DT_FLOAT);
     ("loudness_db", mkFixedLenFeature [Some 1000%Z] DT_FLOAT)].

Record TFRecordProvider : Type := mkTFRecordProvider {
  cls : TFRecordClass;
  file_pattern : string;
}.

(** [file_pattern or self.default_file_pattern]: a pattern that is [None]
    or empty is falsy, and only then is the default looked up. *)
Definition TFRecordProvider_init (c : TFRecordClass) (file_pattern : option string)
  : result TFRecordProvider :=
  match file_pattern with
  | Some p =>
      if bool_decide (p = "")
      then p' ← default_file_pattern c; Ok (mkTFRecordProvider c p')
      else Ok (mkTFRecordProvider c p)
  | None => p' ← default_file_pattern c; Ok (mkTFRecordProvider c p')
  end.

(** [args[-1]] *)
Definition last_arg {A} (args : list A) : result A :=
  match last args with
  | Some a => Ok a
  | None => Raise IndexError
  end.

Section TFRecord.
Variable decode : string → option Example.
(** [tf.data.Dataset.list_files(file_pattern, shuffle)] *)
Variable list_files : string → bool → Dataset string.
(** [tf.data.TFRecordDataset] *)
Variable TFRecordDataset : string → Dataset string.
(** [Dataset.interleave(map_func, cycle_length, num_parallel_calls)] *)
Variable interleave :
  (string → Dataset string) → Z → Z → Dataset string → Dataset string.

Definition TFRecordProvider_get_dataset (self : TFRecordProvider) (shuffle : bool)
  : result (Dataset string) :=
  let filenames := list_files (file_pattern self) shuffle in
  let dataset := interleave TFRecordDataset 40 AUTOTUNE filenames in
  Ok dataset.

Definition parse_tfexample (self : TFRecordProvider) (args : list Value)
  : result (list (string * Tensor)) :=
  record ← last_arg args;
  parse_single_example decode record (features_dict (cls self)).

Definition TFRecordProvider_provider (self : TFRecordProvider)
  : DataProvider string (list (string * Tensor)) :=
  mkDataProvider (TFRecordProvider_get_dataset self)
    (fun record => parse_tfexample self [StringTensor record]).
End TFRecord.

End Data.

(** ** Paths and small string functions *)

Module Str.

Definition ends_with_slash (s : string) : bool :=
  match String.get (String.length s - 1) s with
  | Some c => bool_decide (c = "/"%char)
  | None => false
  end.

(** [os.path.join(a, b)] on POSIX paths. *)
Definition os_path_join (a b : string) : string :=
  if String.prefix "/" b then b
  else if bool_decide (a = "") || ends_with_slash a then a +:+ b
  else a +:+ "/" +:+ b.

(** [str.format] of a Python [bool]. *)
Definition format_bool (b : bool) : string := if b then "True" else "False".

Fixpoint lstrip (s : string) : string :=
  match s with
  | String c s' => if bool_decide (c = " "%char) then lstrip s' else s
  | EmptyString => s
  end.

Fixpoint rstrip (s : string) : string :=
  match s with
  | String c s' =>
      match rstrip s' with
      | EmptyString => if bool_decide (c = " "%char) then "" else String c ""
      | r => String c r
      end
  | EmptyString => s
  end.

Definition strip (s : string) : string := rstrip (lstrip s).

(** Split at every newline. *)
Fixpoint lines_aux (cur : string) (s : string) : list string :=
  match s with
  | EmptyString => [String.rev cur]
  | String c s' =>
      if bool_decide (c = "010"%char) then String.rev cur :: lines_aux "" s'
      else lines_aux (String c cur) s'
  end.
Definition lines (s : string) : list string := lines_aux "" s.

(** Split at the first ["="]. *)
Definition split_eq (s : string) : option (string * string) :=
  match String.index 0 "=" s with
  | Some i =>
      Some (String.substring 0 i s,
            String.substring (S i) (String.length s - S i) s)
  | None => None
  end.

End Str.

(** ** gin *)

Module Gin.
Import Str.

(** The configuration held by the [gin] module: the file search path (the
    empty prefix is always tried first), the parameter bindings, and
    whether the configuration is locked. *)
Record Config : Type := mkConfig {
  search_path : list string;
  bindings : gmap string string;
  locked : bool;
}.

Definition initial : Config := mkConfig [] ∅ false.

(** One statement of a configuration. *)
Inductive Statement : Type :=
| Blank
| Binding (key value : string)
| SyntaxError.

(** Only [name = value] statements, blank lines and comment lines are
    modelled. *)
Definition parse_statement (line : string) : Statement :=
  let line := strip line in
  if bool_decide (line = "") || String.prefix "#" line then Blank
  else match split_eq line with
       | Some (k, v) => Binding (strip k) (strip v)
       | None => SyntaxError
       end.

Section Gin.
(** Whether the configurable a binding key names is registered. *)
Variable registered : string → bool.
(** The readable files and their text. *)
Variable files : gmap string string.

Definition add_config_file_search_path (path : string) (c : Config) : Config :=
  mkConfig (search_path c ++ [path]) (bindings c) (locked c).

(** [gin.bind_parameter]: a later binding of a key replaces an earlier
    one.  A locked configuration cannot be modified, and the key must
    name a registered configurable. *)
Definition bind_parameter (key value : string) (c : Config) : result Config :=
  if locked c then Raise RuntimeError
  else if negb (registered key) then Raise ValueError
  else Ok (mkConfig (search_path c) (<[key := value]> (bindings c)) (locked c)).

Definition parse_line (skip_unknown : bool) (c : Config) (line : string)
  : result Config :=
  match parse_statement line with
  | Blank => Ok c
  | SyntaxError => Raise ValueError
  | Binding key value =>
      if skip_unknown && negb (registered key) then Ok c
      else bind_parameter key value c
  end.

Fixpoint parse_lines (skip_unknown : bool) (ls : list string) (c : Config)
  : result Config :=
  match ls with
  | [] => Ok c
  | l :: ls' => c' ← parse_line skip_unknown c l; parse_lines skip_unknown ls' c'
  end.

(** [gin.parse_config(bindings, skip_unknown)], for a string and for a
    list of strings (which gin joins by newlines). *)
Definition parse_config (text : string) (skip_unknown : bool) (c : Config)
  : result Config :=
  parse_lines skip_unknown (lines text) c.

Definition parse_config_list (texts : list string) (skip_unknown : bool)
    (c : Config) : result Config :=
  parse_lines skip_unknown (texts ≫= lines) c.

(** The first existing file among the search-path prefixes. *)
Fixpoint find_file (prefixes : list string) (config_file : string)
  : option string :=
  match prefixes with
  | [] => None
  | p :: ps =>
      match files !! os_path_join p config_file with
      | Some text => Some text
      | None => find_file ps config_file
      end
  end.

(** [gin.parse_config_file(config_file, skip_unknown)] *)
Definition parse_config_file (config_file : string) (skip_unknown : bool)
    (c : Config) : result Config :=
  match find_file ("" :: search_path c) config_file with
  | Some text => parse_config text skip_unknown c
  | None => Raise (IOError config_file)
  end.

Fixpoint parse_config_files (config_files : list string) (skip_unknown : bool)
    (c : Config) : result Config :=
  match config_files with
  | [] => Ok c
  | f :: fs =>
      c' ← parse_config_file f skip_unknown c;
      parse_config_files fs skip_unknown c'
  end.

(** [gin.finalize()] locks the configuration. *)
Definition finalize (c : Config) : result Config :=
  if locked c then Raise RuntimeError
  else Ok (mkConfig (search_path c) (bindings c) true).

(** [gin.parse_config_files_and_bindings(config_files, bindings,
    skip_unknown)]: the files in order, then the bindings (joined by
    newlines, so parsed one after the other), then [finalize]. *)
Definition parse_config_files_and_bindings (config_files bindings : list string)
    (skip_unknown : bool) (c : Config) : result Config :=
  c ← parse_config_files config_files skip_unknown c;
  c ← parse_config_list bindings skip_unknown c;
  finalize c.
End Gin.

End Gin.

(** ** ddsp_run.py *)

Module DdspRun.
Import Str.

Inductive Mode : Type := train | eval | sample.

(** The command-line flags. *)
Record Flags : Type := mkFlags {
  mode : Mode;
  model_dir : string;
  master : string;
  use_tpu : bool;
  gin_search_path : list string;
  gin_file : list string;
  gin_param : list string;
  num_train_steps : Z;
  eval_once : bool;
  initial_delay_secs : option Z;
}.

Section Run.
(** The data providers and models the external routines work on. *)
Context {Provider Model : Type}.

(** What the program does to the outside, in order: the calls into gin
    that read configuration, and the calls of the external routines
    with the arguments they receive. *)
Inductive Call : Type :=
| GinAddSearchPath (path : string)
| GinParseConfigFile (config_file : string) (skip_unknown : bool)
| GinParseConfig (text : string)
| GinParseConfigFilesAndBindings (config_files bindings : list string)
    (skip_unknown : bool)
| LogInfo
| Sleep (secs : Z)
| Train (data_provider : Provider) (model : Model) (model_dir : string)
    (num_steps : Z) (master : string) (use_tpu : bool)
| Evaluate (data_provider : Provider) (model : Model) (model_dir : string)
    (master : string) (run_once : bool)
| Sample (data_provider : Provider) (model : Model) (model_dir : string)
    (master : string) (run_once : bool).

(** The state the program runs in. *)
Record World : Type := mkWorld {
  gin : Gin.Config;
  calls : list Call;
}.

(** A computation that may change the world and may raise. *)
Definition M (A : Type) : Type := World → result (A * World).

Definition ret {A} (a : A) : M A := fun w => Ok (a, w).
Definition bind {A B} (m : M A) (f : A → M B) : M B :=
  fun w => match m w with
           | Ok (a, w') => f a w'
           | Raise e => Raise e
           end.
Definition raise {A} (e : exn) : M A := fun _ => Raise e.
Definition log (c : Call) : M unit :=
  fun w => Ok (tt, mkWorld (gin w) (calls w ++ [c])).
Definition get_gin : M Gin.Config := fun w => Ok (gin w, w).
Definition put_gin (c : Gin.Config) : M unit :=
  fun w => Ok (tt, mkWorld c (calls w)).
(** Run a gin operation on the configuration. *)
Definition on_gin (op : Gin.Config → result Gin.Config) : M unit :=
  fun w => match op (gin w) with
           | Ok c => Ok (tt, mkWorld c (calls w))
           | Raise e => Raise e
           end.
Definition lift {A} (r : result A) : M A :=
  fun w => match r with Ok a => Ok (a, w) | Raise e => Raise e end.

#[export] Instance M_ret : MRet M := @ret.
#[export] Instance M_bind : MBind M := fun A B f m => bind m f.

Fixpoint for_each {A} (l : list A) (body : A → M unit) : M unit :=
  match l with
  | [] => ret tt
  | a :: l' => body a ;; for_each l' body
  end.

Variable FLAGS : Flags.
(** [pkg_resources.resource_filename(__name__, 'gin')] *)
Variable GIN_PATH : string.
(** gin's registry of configurables and the readable files. *)
Variable registered : string → bool.
Variable files : gmap string string.
(** [os.path.expanduser] *)
Variable expanduser : string → string.
(** [models.get_model()], which builds the model the configuration
    names. *)
Variable get_model : gmap string string → result Model.
(** The object a configured value denotes. *)
Variable construct : string → result Provider.

(** [tf.gfile.Exists] *)
Definition gfile_Exists (path : string) : bool :=
  bool_decide (is_Some (files !! path)).

(** [with gin.unlock_config(): body] around a block of the program. *)
Definition with_unlock_config (body : M unit) : M unit :=
  fun w =>
    let config_was_locked := Gin.locked (gin w) in
    let c := gin w in
    match body (mkWorld (Gin.mkConfig (Gin.search_path c) (Gin.bindings c) false)
                  (calls w)) with
    | Ok (_, w') =>
        let c' := gin w' in
        Ok (tt, mkWorld (Gin.mkConfig (Gin.search_path c') (Gin.bindings c')
                           config_was_locked) (calls w'))
    | Raise e => Raise e
    end.

Definition gin_add_config_file_search_path (path : string) : M unit :=
  log (GinAddSearchPath path) ;;
  on_gin (fun c => Ok (Gin.add_config_file_search_path path c)).

Definition gin_parse_config_file (config_file : string) (skip_unknown : bool)
  : M unit :=
  log (GinParseConfigFile config_file skip_unknown) ;;
  on_gin (Gin.parse_config_file registered files config_file skip_unknown).

Definition gin_parse_config (text : string) : M unit :=
  log (GinParseConfig text) ;;
  on_gin (Gin.parse_config registered text false).

Definition gin_parse_config_files_and_bindings
    (config_files bindings : list string) (skip_unknown : bool) : M unit :=
  log (GinParseConfigFilesAndBindings config_files bindings skip_unknown) ;;
  on_gin (Gin.parse_config_files_and_bindings registered files
            config_files bindings skip_unknown).

Definition delay_start : M unit :=
  let delay_time := initial_delay_secs FLAGS in
  match delay_time with
  | Some secs =>
      if bool_decide (secs = 0%Z) then ret tt
      else
        log LogInfo ;;
        (* [time.sleep] rejects a negative length *)
        if bool_decide (secs < 0)%Z then raise ValueError else log (Sleep secs)
  | None => ret tt
  end.

Definition parse_gin (model_dir : string) : M unit :=
  for_each (GIN_PATH :: gin_search_path FLAGS)
    (fun gin_search_path => gin_add_config_file_search_path gin_search_path) ;;
  with_unlock_config (
    let opt_default := if use_tpu FLAGS then "base_tpu.gin" else "base.gin" in
    gin_parse_config_file (os_path_join "optimization" opt_default) false ;;
    let operative_config := os_path_join model_dir "operative_config-0.gin" in
    (if gfile_Exists operative_config
     then gin_parse_config_file operative_config true
     else ret tt) ;;
    gin_parse_config
      ("ddsp.core.cumsum.use_tpu=" +:+ format_bool (use_tpu FLAGS)) ;;
    gin_parse_config_files_and_bindings (gin_file FLAGS) (gin_param FLAGS) true).

(** Modelled from the spec: [train_util.train], [eval_util.evaluate] and
    [eval_util.sample] are not part of the sources at hand.  They are
    gin-configurable routines; an argument passed as [gin.REQUIRED] is
    supplied from the binding of that parameter, and a call fails at
    once when the parameter was never bound. *)
Definition gin_required (routine parameter : string) : M Provider :=
  c ← get_gin;
  match Gin.bindings c !! (routine +:+ "." +:+ parameter) with
  | Some value => lift (construct value)
  | None => raise RuntimeError
  end.

Definition train_util_train (model : Model) (model_dir : string)
    (num_steps : Z) (master : string) (use_tpu : bool) : M unit :=
  data_provider ← gin_required "train" "data_provider";
  log (Train data_provider model model_dir num_steps master use_tpu).

Definition eval_util_evaluate (model : Model) (model_dir : string)
    (master : string) (run_once : bool) : M unit :=
  data_provider ← gin_required "evaluate" "data_provider";
  log (Evaluate data_provider model model_dir master run_once).

Definition eval_util_sample (model : Model) (model_dir : string)
    (master : string) (run_once : bool) : M unit :=
  data_provider ← gin_required "sample" "data_provider";
  log (Sample data_provider model model_dir master run_once).

Definition models_get_model : M Model :=
  c ← get_gin; lift (get_model (Gin.bindings c)).

Definition run : M unit :=
  let model_dir := expanduser (model_dir FLAGS) in
  parse_gin model_dir ;;
  model ← models_get_model;
  match mode FLAGS with
  | train =>
      train_util_train model model_dir (num_train_steps FLAGS)
        (master FLAGS) (use_tpu FLAGS)
  | eval =>
      delay_start ;;
      eval_util_evaluate model model_dir (master FLAGS) (eval_once FLAGS)
  | sample =>
      delay_start ;;
      eval_util_sample model model_dir (master FLAGS) (eval_once FLAGS)
  end.

Definition is_routine_call (c : Call) : bool :=
  match c with
  | Train _ _ _ _ _ _ | Evaluate _ _ _ _ _ | Sample _ _ _ _ _ => true
  | _ => false
  end.

Definition is_parse_call (c : Call) : bool :=
  match c with
  | GinParseConfigFile _ _ | GinParseConfig _
  | GinParseConfigFilesAndBindings _ _ _ => true
  | _ => false
  end.
End Run.

End DdspRun.

(** * Reference definitions

    What the operations are meant to compute, stated on plain lists, and
    the concrete objects the examples run on. *)

Module Spec.
Import Tf TfExample Data.
Local Open Scope nat_scope.

(** The full groups of [n] consecutive elements of [l], in order; a
    shorter remainder is left out. *)
Definition chunks {A} (n : nat) (l : list A) : list (list A) :=
  reshape (replicate (length l / n) n) l.

(** The seed of the source iterator of pass [k] of a run seeded with [e]:
    the repeat stage forks the seed of each pass, and a shuffle stage
    forks once more for its input. *)
Definition pass_seed (shuffle : bool) (e : Entropy) (k : nat) : Entropy :=
  if shuffle then fork (fork e k) 0 else fork e k.

(** The value at the end of a path of keys. *)
Fixpoint lookup_path {T} (ex : pyval T) (path : list string) : result (pyval T) :=
  match path with
  | [] => Ok ex
  | key :: path' => v ← subscript ex key; lookup_path v path'
  end.

(** The eight fields of a flattened NSynth record and where each comes
    from. *)
Definition flat_keys : list string :=
  ["pitch"; "audio"; "instrument_source"; "instrument_family"; "instrument";
   "f0_hz"; "f0_confidence"; "loudness_db"].
Definition expected_paths : list (list string) :=
  [["pitch"]; ["audio"]; ["instrument"; "source"]; ["instrument"; "family"];
   ["instrument"; "label"]; ["f0"; "hz"]; ["f0"; "confidence"];
   ["loudness"; "db"]].

(** Field selection: look up every path, in order, and pair the values
    with the flat keys. *)
Definition select_fields {T} (ex : pyval T) : result (pyval T) :=
  vs ← mapR (lookup_path ex) expected_paths;
  Ok (PDict (zip flat_keys vs)).

(** The bindings one configuration line makes: none for a blank line, a
    comment or an unregistered configurable. *)
Definition stmt_layer (registered : string → bool) (line : string)
  : gmap string string :=
  match Gin.parse_statement line with
  | Gin.Binding key value => if registered key then {[ key := value ]} else ∅
  | _ => ∅
  end.

(** The bindings a list of lines makes; a later line wins over an earlier
    one. *)
Fixpoint layer_of_lines (registered : string → bool) (ls : list string)
  : gmap string string :=
  match ls with
  | [] => ∅
  | l :: ls' => layer_of_lines registered ls' ∪ stmt_layer registered l
  end.

(** The bindings of a configuration file found along the search path. *)
Definition file_layer (registered : string → bool) (files : gmap string string)
    (prefixes : list string) (config_file : string) : gmap string string :=
  match Gin.find_file files prefixes config_file with
  | Some text => layer_of_lines registered (Str.lines text)
  | None => ∅
  end.

(** The bindings of several files; a later file wins over an earlier
    one. *)
Fixpoint files_layer (registered : string → bool) (files : gmap string string)
    (prefixes : list string) (config_files : list string) : gmap string string :=
  match config_files with
  | [] => ∅
  | f :: fs =>
      files_layer registered files prefixes fs
      ∪ file_layer registered files prefixes f
  end.

(** [c'] is [c] with the bindings of [layer] added on top. *)
Definition extends (c' c : Gin.Config) (layer : gmap string string) : Prop :=
  Gin.search_path c' = Gin.search_path c ∧
  Gin.locked c' = Gin.locked c ∧
  Gin.bindings c' = layer ∪ Gin.bindings c.

(** The calls [parse_gin] makes, in order. *)
Definition parse_gin_calls {Provider Model : Type} (FLAGS : DdspRun.Flags)
    (GIN_PATH : string) (files : gmap string string) (model_dir : string)
  : list (@DdspRun.Call Provider Model) :=
  (DdspRun.GinAddSearchPath <$> GIN_PATH :: DdspRun.gin_search_path FLAGS) ++
  [DdspRun.GinParseConfigFile
     (if DdspRun.use_tpu FLAGS then "optimization/base_tpu.gin"
      else "optimization/base.gin") false] ++
  (if bool_decide
        (is_Some (files !! Str.os_path_join model_dir "operative_config-0.gin"))
   then [DdspRun.GinParseConfigFile
           (Str.os_path_join model_dir "operative_config-0.gin") true]
   else []) ++
  [DdspRun.GinParseConfig
     ("ddsp.core.cumsum.use_tpu=" +:+ Str.format_bool (DdspRun.use_tpu FLAGS));
   DdspRun.GinParseConfigFilesAndBindings
     (DdspRun.gin_file FLAGS) (DdspRun.gin_param FLAGS) true].

(** The bindings [parse_gin] leaves, layer over layer; in [m1 ∪ m2] a key
    bound in [m1] keeps the value [m1] gives it. *)
Definition parse_gin_bindings (FLAGS : DdspRun.Flags) (GIN_PATH : string)
    (registered : string → bool) (files : gmap string string)
    (model_dir : string) (before : Gin.Config) : gmap string string :=
  let prefixes :=
    "" :: Gin.search_path before ++ GIN_PATH :: DdspRun.gin_search_path FLAGS in
  let operative_config := Str.os_path_join model_dir "operative_config-0.gin" in
  (layer_of_lines registered (DdspRun.gin_param FLAGS ≫= Str.lines)
   ∪ files_layer registered files prefixes (DdspRun.gin_file FLAGS))
  ∪ ({[ "ddsp.core.cumsum.use_tpu" := Str.format_bool (DdspRun.use_tpu FLAGS) ]}
     ∪ ((if bool_decide (is_Some (files !! operative_config))
         then file_layer registered files prefixes operative_config
         else ∅)
        ∪ (file_layer registered files prefixes
             (if DdspRun.use_tpu FLAGS then "optimization/base_tpu.gin"
              else "optimization/base.gin")
           ∪ Gin.bindings before))).

(** A small installation for the examples: the packaged defaults, a
    snapshot left by an earlier run (with a binding for a configurable that
    no longer exists), and a user file that binds the data provider. *)
Definition nl : string := String "010"%char "".

Definition example_flags : DdspRun.Flags :=
  DdspRun.mkFlags DdspRun.train "~/tmp/ddsp" "" false [] ["nsynth.gin"]
    ["train.batch_size=16"] 1000000%Z false None.

Definition example_files : gmap string string :=
  list_to_map
    [("gin/optimization/base.gin",
      "train.learning_rate = 0.001" +:+ nl +:+ "train.batch_size = 32");
     ("/home/u/tmp/ddsp/operative_config-0.gin",
      "train.batch_size = 64" +:+ nl +:+ "old.unknown = 1" +:+ nl +:+
      "train.steps_per_save = 300");
     ("gin/nsynth.gin", "train.data_provider = @data.NSynthTfds()")].

Definition example_registered (key : string) : bool :=
  negb (String.prefix "old." key).

Definition example_expanduser (path : string) : string :=
  match path with
  | String "~" rest => "/home/u" +:+ rest
  | _ => path
  end.

Definition example_world : @DdspRun.World string string :=
  DdspRun.mkWorld Gin.initial [].

(** A provider over an in-memory list of records, with the base class's
    preprocessing. *)
Definition list_provider {A} (l : list A) : DataProvider A A :=
  mkDataProvider (fun _ => Ok (from_list l)) (fun x => Ok x).

(** A seed for the examples. *)
Definition seed0 : Entropy := fun p => length p + 7 * sum_list p + 3.

End Spec.

(** * Runs that end in an exception *)

Module Failing.
Import Tf.

(** [fails d it l e]: advancing [it] yields the elements of [l] and then
    raises [e]. *)
Inductive fails {A} (d : Dataset A) : Iter d → list A → exn → Prop :=
| fails_now it e :
    get_next d it = Fail e → fails d it [] e
| fails_later it a it' l e :
    get_next d it = Yield a it' → fails d it' l e → fails d it (a :: l) e.

(** The calls [delay_start] makes for a given delay. *)
Definition delay_calls {Provider Model : Type} (delay : option Z)
  : list (@DdspRun.Call Provider Model) :=
  match delay with
  | Some secs =>
      if bool_decide (secs = 0%Z) then []
      else [DdspRun.LogInfo; DdspRun.Sleep secs]
  | None => []
  end.

(** A catalogue record with all the fields of an NSynth example and one
    more. *)
Definition example_nsynth (extra : Z) : Data.pyval Z :=
  Data.PDict
    [("pitch", Data.PTensor 60%Z); ("audio", Data.PTensor 0%Z);
     ("id", Data.PTensor extra);
     ("instrument",
      Data.PDict [("source", Data.PTensor 1%Z); ("family", Data.PTensor 3%Z);
                  ("label", Data.PTensor 2%Z)]);
     ("f0", Data.PDict [("hz", Data.PTensor 440%Z);
                        ("confidence", Data.PTensor 1%Z)]);
     ("loudness", Data.PDict [("db", Data.PTensor (-20)%Z)])].

(** A decoded solo-instrument record of the declared lengths. *)
Definition example_solo : gmap string TfExample.Feature :=
  list_to_map
    [("audio", TfExample.FloatList (replicate (Z.to_nat 64000) 0%Z));
     ("f0_hz", TfExample.FloatList (replicate (Z.to_nat 1000) 1%Z));
     ("f0_confidence", TfExample.FloatList (replicate (Z.to_nat 1000) 2%Z));
     ("loudness_db", TfExample.FloatList (replicate (Z.to_nat 1000) 3%Z));
     ("note", TfExample.BytesList ["a"])].

(** A provider over a list of numbers whose preprocessing rejects
    zero. *)
Definition nonzero_provider (l : list Z) : Data.DataProvider Z Z :=
  Data.mkDataProvider (fun _ => Ok (from_list l))
    (fun x => if bool_decide (x = 0%Z) then Raise ValueError else Ok x).

(** Flags for an evaluation or sampling job that starts after five
    seconds; the data provider is bound on the command line. *)
Definition example_job_flags (mode : DdspRun.Mode) : DdspRun.Flags :=
  DdspRun.mkFlags mode "~/tmp/ddsp" "" false [] []
    ["evaluate.data_provider=@data.NSynthTfds()";
     "sample.data_provider=@data.NSynthTfds()"]
    1000000%Z true (Some 5%Z).

End Failing.

(** * Properties *)

Import Tf TfExample Data.
Import Spec.
Local Open Scope list_scope.
Local Open Scope nat_scope.

(** ** Iterators *)

Section Iterators.
Context {A : Type}.
Implicit Types (d : Dataset A) (l : list A).

Lemma drains_det d it l1 l2 : drains d it l1 → drains d it l2 → l1 = l2.
Proof.
  intros H1; revert l2.
  induction H1 as [it He | it a it' l Hy _ IH]; intros l2 H2;
    inversion H2; subst; try congruence.
  assert (a0 = a ∧ it'0 = it') as [-> ->] by (split; congruence).
  f_equal; auto.
Qed.

Lemma pull_drains d it l n : drains d it l → pull d n it = take n l.
Proof.
  intros H; revert n.
  induction H as [it He | it a it' l Hy _ IH]; intros [|n]; simpl;
    rewrite ?He, ?Hy; try done.
  by rewrite IH.
Qed.

Lemma pull_length d it n : length (pull d n it) ≤ n.
Proof.
  revert it; induction n as [|n IH]; intros it; simpl; [lia|].
  destruct (get_next d it); simpl; try lia.
  specialize (IH s); lia.
Qed.

Lemma drains_from_list l0 l : drains (from_list l0) l l.
Proof. induction l; [by apply drains_end | by eapply drains_yield]. Qed.

Lemma prefetch_elements d (buffer_size : Z) e n :
  elements (prefetch buffer_size d) e n = elements d e n.
Proof. reflexivity. Qed.
End Iterators.

(** ** batch *)

Section Batch.
Context {A : Type}.
Implicit Types (d : Dataset A).

Lemma collect_size d n acc it b it' :
  collect d true n acc it = Yield b it' → length b = n + length acc.
Proof.
  revert acc it; induction n as [|n IH]; intros acc it; simpl.
  - intros [= <- _]. by rewrite length_rev.
  - destruct (get_next d it) as [a s| |]; try done.
    + intros H%IH. simpl in H. lia.
    + by destruct acc.
Qed.

Lemma batch_Ok d (batch_size : Z) drop bd :
  batch batch_size drop d = Ok bd →
  (1 ≤ batch_size)%Z ∧ bd = batch_dataset d drop (Z.to_nat batch_size).
Proof.
  unfold batch. destruct (batch_size <? 1)%Z eqn:E; [done|].
  intros [= <-]. split; [lia | done].
Qed.

Lemma batch_pull_size d (batch_size : Z) bd n (it : Iter bd) b :
  batch batch_size true d = Ok bd →
  b ∈ pull bd n it → Z.of_nat (length b) = batch_size.
Proof.
  intros [Hpos ->]%batch_Ok. revert it.
  induction n as [|n IH]; intros it; simpl; [by intros ?%elem_of_nil|].
  destruct it as [inp|]; [|by intros ?%elem_of_nil].
  destruct (collect d true (Z.to_nat batch_size) [] inp) as [b' it'| |] eqn:E;
    try by intros ?%elem_of_nil.
  intros [->|Hin]%elem_of_cons; [|by eapply IH].
  apply collect_size in E. simpl in E. lia.
Qed.
End Batch.

(** C1.  Every batch that [get_batch] yields holds exactly [batch_size]
    records, for every provider, every shuffle flag and every repeat count:
    a trailing group of fewer records is never emitted. *)
Theorem get_batch_exact_size {Raw Rec} (self : DataProvider Raw Rec)
    (batch_size : Z) (shuffle : bool) (repeats : Z)
    (ds : Dataset (list Rec)) (e : Entropy) (n : nat) (b : list Rec) :
  get_batch self batch_size shuffle repeats = Ok ds →
  b ∈ elements ds e n →
  Z.of_nat (length b) = batch_size.
Proof.
  unfold get_batch. intros Hds Hb.
  destruct (get_dataset self shuffle) as [src|]; [|done]. simpl in Hds.
  destruct (if shuffle then _ else _) as [sh|]; [|done]. simpl in Hds.
  destruct (batch batch_size true _) as [bd|] eqn:Hbd; [|done].
  simpl in Hds. injection Hds as <-.
  rewrite prefetch_elements in Hb. by eapply batch_pull_size.
Qed.

Lemma get_batch_exact_size_witness :
  Z.of_nat (length [3; 1]) = 2%Z.
Proof.
  eapply (get_batch_exact_size (list_provider [1; 2; 3]) 2 false 2 _ seed0 5).
  - reflexivity.
  - vm_compute. apply list_elem_of_further, list_elem_of_here.
Defined.

(** C3.  The function [get_input_fn] returns, applied to a [params]
    dictionary with the key ['batch_size'], yields pairs whose two
    components are the same batch. *)
Theorem get_input_fn_self_paired {Raw Rec} (self : DataProvider Raw Rec)
    (shuffle : bool) (repeats : Z) (params : gmap string Z) (batch_size : Z)
    (ds : Dataset (list Rec * list Rec)) (e : Entropy) (n : nat)
    (pair : list Rec * list Rec) :
  params !! "batch_size" = Some batch_size →
  get_input_fn self shuffle repeats params = Ok ds →
  pair ∈ elements ds e n →
  pair.1 = pair.2.
Proof.
  unfold get_input_fn, getitem. intros -> Hds. simpl in Hds.
  destruct (get_batch self batch_size shuffle repeats) as [bd|]; [|done].
  simpl in Hds. injection Hds as <-.
  unfold elements. generalize (make_iterator (Tf.map (λ ex, Ok (ex, ex)) AUTOTUNE bd) e).
  induction n as [|n IH]; intros it; simpl; [by intros ?%elem_of_nil|].
  destruct (get_next bd it) as [a s| |]; try by intros ?%elem_of_nil.
  intros [->|Hin]%elem_of_cons; [done | by eapply IH].
Qed.

Lemma get_input_fn_self_paired_witness :
  ([3; 1], [3; 1]).1 = ([3; 1], [3; 1]).2.
Proof.
  eapply (get_input_fn_self_paired (list_provider [1; 2; 3]) false 2
            {[ "batch_size" := 2%Z ]} 2 _ seed0 5).
  - reflexivity.
  - reflexivity.
  - vm_compute. apply list_elem_of_further, list_elem_of_here.
Defined.

(** C7.  [get_dataset] of the base class raises [NotImplementedError]
    whatever the shuffle argument, and so does constructing a
    [TFRecordProvider] without a file pattern when the class inherits the
    base [default_file_pattern], whatever features it declares. *)
Theorem base_contract_not_implemented :
  (∀ (A : Type) (shuffle : bool),
     get_dataset (DataProvider_base A) shuffle = Raise NotImplementedError) ∧
  (∀ features : list (string * FixedLenFeature),
     TFRecordProvider_init
       (mkTFRecordClass (default_file_pattern TFRecordProvider_class) features)
       None
     = Raise NotImplementedError) ∧
  TFRecordProvider_init SoloInstrument_class None = Raise NotImplementedError.
Proof. done. Qed.

(** ** Record parsing *)

Section MapR.
Context {A B : Type}.
Implicit Types (f : A → result B) (l : list A).

Lemma mapR_Ok_length f l bs : mapR f l = Ok bs → length bs = length l.
Proof.
  revert bs; induction l as [|a l IH]; intros bs; simpl.
  - by intros [= <-].
  - destruct (f a) as [b|]; [|done]; simpl.
    destruct (mapR f l) as [bs'|]; [|done]; simpl.
    intros [= <-]. simpl. f_equal. by apply IH.
Qed.

Lemma mapR_Ok_lookup f l bs i a :
  mapR f l = Ok bs → l !! i = Some a → ∃ b, f a = Ok b ∧ bs !! i = Some b.
Proof.
  revert bs i; induction l as [|a' l IH]; intros bs i; simpl; [done|].
  destruct (f a') as [b'|] eqn:Ea; [|done]; simpl.
  destruct (mapR f l) as [bs'|]; [|done]; simpl.
  intros [= <-]. destruct i as [|i]; simpl.
  - intros [= <-]. eauto.
  - by apply IH.
Qed.

(** The exception raised is that of the first element that fails. *)
Lemma mapR_first_failure f l i a e :
  l !! i = Some a → f a = Raise e →
  (∀ j a', j < i → l !! j = Some a' → is_Ok (f a')) →
  mapR f l = Raise e.
Proof.
  revert i; induction l as [|a' l IH]; intros i; simpl; [done|].
  destruct i as [|i]; simpl.
  - intros [= ->] -> _. done.
  - intros Hi He Hbefore.
    destruct (Hbefore 0 a') as [b ->]; [lia | done |]. simpl.
    rewrite (IH i); [done | done | done |].
    intros j a'' Hj Hl. apply (Hbefore (S j)); [lia | done].
Qed.
End MapR.

Lemma last_arg_snoc {A} (pre : list A) (a : A) : last_arg (pre ++ [a]) = Ok a.
Proof. unfold last_arg. by rewrite last_snoc. Qed.

Lemma parse_tfexample_snoc decode self (pre : list Value) (record : Value) :
  parse_tfexample decode self (pre ++ [record])
  = parse_single_example decode record (features_dict (cls self)).
Proof. unfold parse_tfexample. by rewrite last_arg_snoc. Qed.

(** C10.  The parse function of [TFRecordProvider.get_preprocess_fn] reads
    its last argument only: two argument lists, of any lengths, that end in
    the same serialized record are parsed to the same result. *)
Theorem parse_tfexample_last_argument_only
    (decode : string → option Example) (self : TFRecordProvider)
    (args1 args2 : list Value) (record : Value) :
  last args1 = Some record →
  last args2 = Some record →
  parse_tfexample decode self args1 = parse_tfexample decode self args2.
Proof.
  intros H1 H2. unfold parse_tfexample, last_arg. by rewrite H1, H2.
Qed.

Lemma parse_tfexample_last_argument_only_witness :
  parse_tfexample (fun _ => Some ∅)
    (mkTFRecordProvider SoloInstrument_class "*.tfrecord")
    [StringTensor "a"; NumericTensor (mkTensor [] (Int64List [7%Z]));
     StringTensor "rec"]
  = parse_tfexample (fun _ => Some ∅)
      (mkTFRecordProvider SoloInstrument_class "*.tfrecord")
      [StringTensor "rec"].
Proof.
  apply (parse_tfexample_last_argument_only _ _ _ _ (StringTensor "rec"));
    reflexivity.
Defined.

Lemma check_features_SoloInstrument :
  check_features (features_dict SoloInstrument_class)
  = Ok [("audio", ([64000%Z], DT_FLOAT)); ("f0_hz", ([1000%Z], DT_FLOAT));
        ("f0_confidence", ([1000%Z], DT_FLOAT));
        ("loudness_db", ([1000%Z], DT_FLOAT))].
Proof. reflexivity. Qed.

Lemma parse_dense_wrong_size ex key f s t :
  ex !! key = Some f → Z.of_nat (feature_size f) ≠ num_elements s →
  parse_dense ex key s t = Raise InvalidArgumentError.
Proof.
  intros Hf Hn. unfold parse_dense. rewrite Hf.
  destruct (negb _); [done|].
  destruct (Z.eqb_spec (Z.of_nat (feature_size f)) (num_elements s)); done.
Qed.

Lemma parse_dense_Ok ex key s t v :
  parse_dense ex key s t = Ok v →
  ∃ f, ex !! key = Some f ∧ feature_dtype f = t ∧
       Z.of_nat (feature_size f) = num_elements s ∧ v = mkTensor s f.
Proof.
  unfold parse_dense. destruct (ex !! key) as [f|]; [|done].
  destruct (dtype_eqb (feature_dtype f) t) eqn:Ht; [|done]. simpl.
  destruct (Z.eqb_spec (Z.of_nat (feature_size f)) (num_elements s)); [|done].
  simpl. intros [= <-]. exists f. repeat split; [|done].
  by destruct (feature_dtype f), t.
Qed.

(** C8.  [SoloInstrument] declares float features of fixed lengths
    64000, 1000, 1000 and 1000, and its preprocessing function rejects,
    with an invalid-argument error, every record whose [audio] feature
    does not hold exactly 64000 values; a record it accepts has a float
    [audio] feature of exactly 64000 values. *)
Theorem solo_instrument_rejects_audio_length
    (decode : string → option Example)
    (list_files : string → bool → Dataset string)
    (TFRecordDataset : string → Dataset string)
    (interleave :
       (string → Dataset string) → Z → Z → Dataset string → Dataset string) :
  let preprocess pattern :=
    get_preprocess_fn
      (TFRecordProvider_provider decode list_files TFRecordDataset interleave
         (mkTFRecordProvider SoloInstrument_class pattern)) in
  features_dict SoloInstrument_class
  = [("audio", mkFixedLenFeature [Some 64000%Z] DT_FLOAT);
     ("f0_hz", mkFixedLenFeature [Some 1000%Z] DT_FLOAT);
     ("f0_confidence", mkFixedLenFeature [Some 1000%Z] DT_FLOAT);
     ("loudness_db", mkFixedLenFeature [Some 1000%Z] DT_FLOAT)] ∧
  (∀ (pattern record : string) (ex : Example) (audio : Feature),
     decode record = Some ex →
     ex !! "audio" = Some audio →
     Z.of_nat (feature_size audio) ≠ 64000%Z →
     preprocess pattern record = Raise InvalidArgumentError) ∧
  (∀ (pattern record : string) (parsed : list (string * Tensor)),
     preprocess pattern record = Ok parsed →
     ∃ (ex : Example) (values : list float32),
       decode record = Some ex ∧
       ex !! "audio" = Some (FloatList values) ∧
       Z.of_nat (length values) = 64000%Z).
Proof.
  intros preprocess. split; [done|]. subst preprocess. split.
  - intros pattern record ex audio Hdec Haudio Hlen. simpl.
    unfold parse_tfexample, parse_single_example. simpl cls.
    rewrite check_features_SoloInstrument. simpl.
    rewrite Hdec. simpl.
    rewrite (parse_dense_wrong_size ex "audio" audio); [done | done |].
    unfold num_elements. simpl. lia.
  - intros pattern record parsed. simpl.
    unfold parse_tfexample, parse_single_example. simpl cls.
    rewrite check_features_SoloInstrument. simpl.
    destruct (decode record) as [ex|]; [|done]. simpl.
    destruct (parse_dense ex "audio" [64000%Z] DT_FLOAT) as [v|] eqn:Hv; [|done].
    intros _. apply parse_dense_Ok in Hv as (f & Hf & Ht & Hn & _).
    destruct f as [|values|]; try done.
    exists ex, values. split; [done|]. split; [done|].
    unfold num_elements in Hn. simpl in Hn. lia.
Qed.

Lemma solo_instrument_rejects_audio_length_witness :
  get_preprocess_fn
    (TFRecordProvider_provider
       (fun _ => Some {[ "audio" := FloatList [0%Z; 0%Z; 0%Z] ]})
       (fun _ _ => from_list []) (fun _ => from_list [])
       (fun _ _ _ d => d)
       (mkTFRecordProvider SoloInstrument_class "*.tfrecord"))
    "rec"
  = Raise InvalidArgumentError.
Proof.
  apply (proj1 (proj2 (solo_instrument_rejects_audio_length _ _ _ _))
           "*.tfrecord" "rec"
           {[ "audio" := FloatList [0%Z; 0%Z; 0%Z] ]} (FloatList [0%Z; 0%Z; 0%Z])).
  - reflexivity.
  - reflexivity.
  - vm_compute. discriminate.
Defined.

(** ** NSynth field selection *)

Lemma preprocess_ex_select_fields {T} (ex : pyval T) :
  preprocess_ex ex = select_fields ex.
Proof.
  unfold preprocess_ex, select_fields. simpl.
  destruct (subscript ex "pitch"); simpl; [|done].
  destruct (subscript ex "audio"); simpl; [|done].
  destruct (subscript ex "instrument") as [inst|]; simpl; [|done].
  destruct (subscript inst "source"); simpl; [|done].
  destruct (subscript inst "family"); simpl; [|done].
  destruct (subscript inst "label"); simpl; [|done].
  destruct (subscript ex "f0") as [f0|]; simpl; [|done].
  destruct (subscript f0 "hz"); simpl; [|done].
  destruct (subscript f0 "confidence"); simpl; [|done].
  destruct (subscript ex "loudness") as [loud|]; simpl; [|done].
  destruct (subscript loud "db"); simpl; done.
Qed.

(** C9.  The preprocessing function of [NSynthTfds] selects fields and
    does nothing else.  When the eight expected paths of a record resolve,
    the result is the flat record of these eight values; a result is only
    ever returned in that case; and when a path does not resolve, the
    exception of the first such path is raised, which for a missing key is
    the [KeyError] of that key. *)
Theorem nsynth_preprocess_field_selection {T} (ex : pyval T) :
  (∀ vs, mapR (lookup_path ex) expected_paths = Ok vs →
         preprocess_ex ex = Ok (PDict (zip flat_keys vs))) ∧
  (∀ out, preprocess_ex ex = Ok out →
          ∃ vs, mapR (lookup_path ex) expected_paths = Ok vs ∧
                length vs = 8 ∧ out = PDict (zip flat_keys vs)) ∧
  (∀ i path e,
     expected_paths !! i = Some path →
     lookup_path ex path = Raise e →
     (∀ j path', j < i → expected_paths !! j = Some path' →
                 is_Ok (lookup_path ex path')) →
     preprocess_ex ex = Raise e) ∧
  (∀ pitch audio items source,
     subscript ex "pitch" = Ok pitch →
     subscript ex "audio" = Ok audio →
     subscript ex "instrument" = Ok (PDict items) →
     assoc "source" items = Some source →
     assoc "family" items = None →
     preprocess_ex ex = Raise (KeyError "family")).
Proof.
  rewrite preprocess_ex_select_fields. unfold select_fields.
  split; [|split; [|split]].
  - by intros vs ->.
  - intros out.
    destruct (mapR (lookup_path ex) expected_paths) as [vs|] eqn:E; [|done].
    simpl. intros [= <-]. exists vs. split; [done|]. split; [|done].
    by apply mapR_Ok_length in E.
  - intros i path e Hi He Hbefore.
    by rewrite (mapR_first_failure _ _ i path e).
  - intros pitch audio items source Hp Ha Hi Hs Hf.
    rewrite (mapR_first_failure _ _ 3 ["instrument"; "family"] (KeyError "family"));
      [done | done | |].
    + simpl. rewrite Hi. simpl. by rewrite Hf.
    + intros j path' Hj Hl.
      destruct j as [|[|[|j]]]; [| | |lia]; simpl in Hl; injection Hl as <-;
        simpl; rewrite ?Hp, ?Ha, ?Hi; simpl; rewrite ?Hs; by eexists.
Qed.

Lemma nsynth_preprocess_field_selection_witness :
  preprocess_ex
    (PDict [("pitch", PTensor 60%Z); ("audio", PTensor 0%Z);
            ("instrument", PDict [("source", PTensor 1%Z); ("label", PTensor 2%Z)]);
            ("f0", PDict [("hz", PTensor 440%Z); ("confidence", PTensor 1%Z)]);
            ("loudness", PDict [("db", PTensor (-20)%Z)])])
  = Raise (KeyError "family").
Proof.
  eapply (proj2 (proj2 (proj2 (nsynth_preprocess_field_selection _))));
    reflexivity.
Defined.

(** ** gin: what parsing does to the bindings *)

Section GinFacts.
Variable registered : string → bool.
Variable files : gmap string string.
Implicit Types (c : Gin.Config).

Lemma extends_refl c : extends c c ∅.
Proof. repeat split. by rewrite (left_id_L ∅ (∪)). Qed.

Lemma extends_trans c1 c2 c3 l1 l2 :
  extends c2 c1 l1 → extends c3 c2 l2 → extends c3 c1 (l2 ∪ l1).
Proof.
  intros (Hs1 & Hk1 & Hb1) (Hs2 & Hk2 & Hb2). repeat split; [congruence..|].
  by rewrite Hb2, Hb1, (assoc_L (∪)).
Qed.

Lemma parse_line_extends skip c line c' :
  Gin.parse_line registered skip c line = Ok c' →
  extends c' c (stmt_layer registered line).
Proof.
  unfold Gin.parse_line, stmt_layer.
  destruct (Gin.parse_statement line) as [|key value|].
  - intros [= <-]. apply extends_refl.
  - unfold Gin.bind_parameter.
    destruct (registered key) eqn:Hreg; simpl.
    + rewrite andb_false_r. destruct (Gin.locked c) eqn:Hl; [done|].
      intros [= <-]. repeat split; simpl; [done|].
      by rewrite insert_union_singleton_l.
    + destruct skip; simpl.
      * intros [= <-]. apply extends_refl.
      * by destruct (Gin.locked c).
  - done.
Qed.

Lemma parse_lines_extends skip ls c c' :
  Gin.parse_lines registered skip ls c = Ok c' →
  extends c' c (layer_of_lines registered ls).
Proof.
  revert c; induction ls as [|l ls IH]; intros c; simpl.
  - intros [= <-]. apply extends_refl.
  - destruct (Gin.parse_line registered skip c l) as [c1|] eqn:E; [|done].
    simpl. intros H%IH. apply parse_line_extends in E.
    by eapply extends_trans.
Qed.

Lemma parse_config_file_extends config_file skip c c' :
  Gin.parse_config_file registered files config_file skip c = Ok c' →
  extends c' c
    (file_layer registered files ("" :: Gin.search_path c) config_file).
Proof.
  unfold Gin.parse_config_file, file_layer, Gin.parse_config.
  destruct (Gin.find_file files _ config_file); [|done].
  apply parse_lines_extends.
Qed.

Lemma parse_config_files_extends config_files skip c c' :
  Gin.parse_config_files registered files config_files skip c = Ok c' →
  extends c' c
    (files_layer registered files ("" :: Gin.search_path c) config_files).
Proof.
  revert c; induction config_files as [|f fs IH]; intros c; simpl.
  - intros [= <-]. apply extends_refl.
  - destruct (Gin.parse_config_file registered files f skip c) as [c1|] eqn:E;
      [|done].
    simpl. intros H%IH. apply parse_config_file_extends in E.
    destruct E as (Hs & Hk & Hb). rewrite Hs in H.
    eapply extends_trans; [|exact H]. done.
Qed.

Lemma parse_config_files_and_bindings_extends config_files bindings skip c c' :
  Gin.parse_config_files_and_bindings registered files config_files bindings
    skip c = Ok c' →
  Gin.search_path c' = Gin.search_path c ∧
  Gin.bindings c'
  = (layer_of_lines registered (bindings ≫= Str.lines)
     ∪ files_layer registered files ("" :: Gin.search_path c) config_files)
    ∪ Gin.bindings c.
Proof.
  unfold Gin.parse_config_files_and_bindings, Gin.parse_config_list, Gin.finalize.
  destruct (Gin.parse_config_files _ _ _ _ c) as [c1|] eqn:E1; [|done]; simpl.
  destruct (Gin.parse_lines _ _ _ c1) as [c2|] eqn:E2; [|done]; simpl.
  destruct (Gin.locked c2); [done|]. intros [= <-]. simpl.
  apply parse_config_files_extends in E1. apply parse_lines_extends in E2.
  destruct (extends_trans _ _ _ _ _ E1 E2) as (Hs & _ & Hb). done.
Qed.

(** The fixed override is one binding, made only if its configurable is
    registered. *)
Lemma parse_config_cumsum (use_tpu : bool) c c' :
  Gin.parse_config registered
    ("ddsp.core.cumsum.use_tpu=" +:+ Str.format_bool use_tpu) false c = Ok c' →
  extends c' c {[ "ddsp.core.cumsum.use_tpu" := Str.format_bool use_tpu ]}.
Proof.
  unfold Gin.parse_config. intros H.
  assert (Str.lines ("ddsp.core.cumsum.use_tpu=" +:+ Str.format_bool use_tpu)
          = ["ddsp.core.cumsum.use_tpu=" +:+ Str.format_bool use_tpu]) as Hlines
    by (by destruct use_tpu).
  assert (Gin.parse_statement
            ("ddsp.core.cumsum.use_tpu=" +:+ Str.format_bool use_tpu)
          = Gin.Binding "ddsp.core.cumsum.use_tpu" (Str.format_bool use_tpu))
    as Hstmt by (by destruct use_tpu).
  rewrite Hlines in H.
  assert (registered "ddsp.core.cumsum.use_tpu" = true) as Hreg.
  { simpl in H. unfold Gin.parse_line, Gin.bind_parameter in H.
    rewrite Hstmt in H. simpl in H.
    destruct (registered "ddsp.core.cumsum.use_tpu"); [done|].
    by destruct (Gin.locked c). }
  apply parse_lines_extends in H. simpl in H. unfold stmt_layer in H.
  rewrite Hstmt, Hreg, (left_id_L ∅ (∪)) in H. done.
Qed.
End GinFacts.

(** ** The run dispatcher *)

Section RunFacts.
Import DdspRun Str.
Context {Provider Model : Type}.
Variable FLAGS : Flags.
Variable GIN_PATH : string.
Variable registered : string → bool.
Variable files : gmap string string.
Variable expanduser : string → string.
Variable get_model : gmap string string → result Model.
Variable construct : string → result Provider.

Lemma bind_Ok {A B} (m : @M Provider Model A) (f : A → @M Provider Model B)
    (w : @World Provider Model) r :
  (m ≫= f) w = Ok r ↔ ∃ a w1, m w = Ok (a, w1) ∧ f a w1 = Ok r.
Proof.
  unfold mbind, M_bind, bind. split.
  - destruct (m w) as [[a w1]|]; [|done]. eauto.
  - by intros (a & w1 & -> & ?).
Qed.

Lemma logged_gin_Ok (c : Call) (op : Gin.Config → result Gin.Config)
    (w : @World Provider Model) r :
  (log c ≫= λ _, on_gin op) w = Ok r ↔
  ∃ cfg, op (gin w) = Ok cfg ∧ r = (tt, mkWorld cfg (calls w ++ [c])).
Proof.
  rewrite bind_Ok. unfold log, on_gin. split.
  - intros (a & w1 & [= _ <-] & H). simpl in H.
    destruct (op (gin w)) as [cfg|]; [|done]. injection H as <-. eauto.
  - intros (cfg & Hop & ->). eexists _, _. split; [done|]. simpl. by rewrite Hop.
Qed.

Lemma for_each_search_path (paths : list string) (w : @World Provider Model) :
  for_each paths (λ p, gin_add_config_file_search_path p) w
  = Ok (tt, mkWorld
              (Gin.mkConfig (Gin.search_path (gin w) ++ paths)
                 (Gin.bindings (gin w)) (Gin.locked (gin w)))
              (calls w ++ (GinAddSearchPath <$> paths))).
Proof.
  revert w; induction paths as [|p paths IH]; intros [[sp b l] cs]; simpl.
  - unfold ret. by rewrite !app_nil_r.
  - unfold mbind, M_bind, bind. simpl. rewrite IH. simpl.
    by rewrite <-!(assoc_L (++)).
Qed.
End RunFacts.

Section ParseGin.
Import DdspRun Str.
Context {Provider Model : Type}.
Variable FLAGS : Flags.
Variable GIN_PATH : string.
Variable registered : string → bool.
Variable files : gmap string string.

(** What a successful [parse_gin] has done: its calls were appended to
    the record of calls, the search path was extended, the bindings are the
    layers in order, and the lock is as before. *)
Lemma parse_gin_Ok (model_dir : string) (w w' : @World Provider Model)
    (u : unit) :
  parse_gin FLAGS GIN_PATH registered files model_dir w = Ok (u, w') →
  calls w' = calls w ++ parse_gin_calls FLAGS GIN_PATH files model_dir ∧
  Gin.bindings (gin w')
  = parse_gin_bindings FLAGS GIN_PATH registered files model_dir (gin w) ∧
  Gin.search_path (gin w')
  = Gin.search_path (gin w) ++ GIN_PATH :: gin_search_path FLAGS ∧
  Gin.locked (gin w') = Gin.locked (gin w).
Proof.
  unfold parse_gin. rewrite bind_Ok. intros ([] & w1 & Hpaths & Hbody).
  rewrite for_each_search_path in Hpaths. injection Hpaths as <-.
  unfold with_unlock_config in Hbody. simpl in Hbody.
  match type of Hbody with
  | match ?body ?w0 with _ => _ end = _ =>
      destruct (body w0) as [[[] w2]|] eqn:Hb; [|done]
  end.
  injection Hbody as <- <-. simpl.
  unfold gin_parse_config_file, gin_parse_config,
    gin_parse_config_files_and_bindings in Hb.
  apply bind_Ok in Hb as ([] & w3 & H1 & Hb).
  apply logged_gin_Ok in H1 as (c1 & H1 & [= ->]).
  apply bind_Ok in Hb as ([] & w4 & H2 & Hb).
  apply bind_Ok in Hb as ([] & w5 & H3 & H4).
  apply logged_gin_Ok in H3 as (c3 & H3 & [= ->]).
  apply logged_gin_Ok in H4 as (c4 & H4 & [= ->]).
  simpl in *.
  apply parse_config_file_extends in H1 as (Hs1 & Hk1 & Hb1).
  apply parse_config_cumsum in H3 as (Hs3 & Hk3 & Hb3).
  apply parse_config_files_and_bindings_extends in H4 as (Hs4 & Hb4).
  assert (os_path_join "optimization"
            (if use_tpu FLAGS then "base_tpu.gin" else "base.gin")
          = if use_tpu FLAGS then "optimization/base_tpu.gin"
            else "optimization/base.gin") as Hopt by (by destruct (use_tpu FLAGS)).
  rewrite Hopt in *. simpl in *.
  unfold parse_gin_calls, parse_gin_bindings, gfile_Exists in *.
  destruct (bool_decide (is_Some (files !! _))) eqn:Hex.
  - apply logged_gin_Ok in H2 as (c2 & H2 & [= ->]). simpl in *.
    apply parse_config_file_extends in H2 as (Hs2 & Hk2 & Hb2).
    rewrite Hs4, Hs3, Hs2, Hs1. split; [|split; [|done]].
    + by rewrite <-!(assoc_L (++)).
    + rewrite Hb4, Hs3, Hs2, Hs1, Hb3, Hb2, Hs1, Hb1. done.
  - injection H2 as <-. simpl in *.
    rewrite Hs4, Hs3, Hs1. split; [|split; [|done]].
    + by rewrite <-!(assoc_L (++)).
    + rewrite Hb4, Hs3, Hs1, Hb3, Hb1. by rewrite (left_id_L ∅ (∪)).
Qed.
End ParseGin.

Section RunTheorems.
Import DdspRun Str.
Context {Provider Model : Type}.
Variable FLAGS : Flags.
Variable GIN_PATH : string.
Variable registered : string → bool.
Variable files : gmap string string.
Variable expanduser : string → string.
Variable get_model : gmap string string → result Model.
Variable construct : string → result Provider.

Lemma parse_gin_calls_no_routine (model_dir : string) :
  filter is_routine_call
    (parse_gin_calls (Provider:=Provider) (Model:=Model)
       FLAGS GIN_PATH files model_dir) = [].
Proof.
  unfold parse_gin_calls. rewrite !filter_app.
  assert (∀ l : list string,
            filter is_routine_call
              (@GinAddSearchPath Provider Model <$> l) = []) as ->.
  { induction l as [|p l IH]; [done|]. rewrite fmap_cons, filter_cons. done. }
  by destruct (bool_decide _).
Qed.

Lemma parse_gin_calls_parse (model_dir : string) :
  filter is_parse_call
    (parse_gin_calls (Provider:=Provider) (Model:=Model)
       FLAGS GIN_PATH files model_dir)
  = [GinParseConfigFile
       (if use_tpu FLAGS then "optimization/base_tpu.gin"
        else "optimization/base.gin") false] ++
    (if bool_decide
          (is_Some (files !! os_path_join model_dir "operative_config-0.gin"))
     then [GinParseConfigFile
             (os_path_join model_dir "operative_config-0.gin") true]
     else []) ++
    [GinParseConfig ("ddsp.core.cumsum.use_tpu=" +:+ format_bool (use_tpu FLAGS));
     GinParseConfigFilesAndBindings (gin_file FLAGS) (gin_param FLAGS) true].
Proof.
  unfold parse_gin_calls. rewrite !filter_app.
  assert (∀ l : list string,
            filter is_parse_call
              (@GinAddSearchPath Provider Model <$> l) = []) as ->.
  { induction l as [|p l IH]; [done|]. rewrite fmap_cons, filter_cons. done. }
  by destruct (bool_decide _).
Qed.

(** C5.  [parse_gin] reads configuration in four layers, in this order,
    a later layer overriding an earlier one: the packaged optimizer
    defaults ([base_tpu.gin] with [use_tpu], [base.gin] without); the
    snapshot [operative_config-0.gin] under the model directory, only if
    the file exists and skipping unknown configurables; the fixed binding
    of [ddsp.core.cumsum.use_tpu] to the flag; the user's files and then
    the user's bindings.  In the bindings that result, [m1 ∪ m2] gives a
    key bound in [m1] the value [m1] has for it. *)
Theorem parse_gin_layer_order (model_dir : string)
    (w w' : @World Provider Model) (u : unit) :
  parse_gin FLAGS GIN_PATH registered files model_dir w = Ok (u, w') →
  let prefixes :=
    "" :: Gin.search_path (gin w) ++ GIN_PATH :: gin_search_path FLAGS in
  let opt_default :=
    if use_tpu FLAGS then "optimization/base_tpu.gin"
    else "optimization/base.gin" in
  let operative_config := os_path_join model_dir "operative_config-0.gin" in
  let snapshot_exists := bool_decide (is_Some (files !! operative_config)) in
  filter is_parse_call (calls w')
  = filter is_parse_call (calls w) ++
    [GinParseConfigFile opt_default false] ++
    (if snapshot_exists then [GinParseConfigFile operative_config true] else []) ++
    [GinParseConfig ("ddsp.core.cumsum.use_tpu=" +:+ format_bool (use_tpu FLAGS));
     GinParseConfigFilesAndBindings (gin_file FLAGS) (gin_param FLAGS) true] ∧
  Gin.bindings (gin w')
  = (layer_of_lines registered (gin_param FLAGS ≫= lines)
     ∪ files_layer registered files prefixes (gin_file FLAGS))
    ∪ ({[ "ddsp.core.cumsum.use_tpu" := format_bool (use_tpu FLAGS) ]}
       ∪ ((if snapshot_exists
           then file_layer registered files prefixes operative_config
           else ∅)
          ∪ (file_layer registered files prefixes opt_default
             ∪ Gin.bindings (gin w)))).
Proof.
  intros (Hcalls & Hbind & _)%parse_gin_Ok. simpl. split.
  - by rewrite Hcalls, filter_app, parse_gin_calls_parse.
  - exact Hbind.
Qed.

(** C6.  In mode [train], once the configuration is read, the model
    resolves and a data provider is bound, [run] completes and has called
    the training routine exactly once, with the data provider built from
    the configuration, the model, the expanded model directory, the step
    budget and the [master] and [use_tpu] flags as given; no evaluation or
    sampling routine is called. *)
Theorem run_train_calls_train_once (w w1 : @World Provider Model) (model : Model)
    (value : string) (data_provider : Provider) :
  mode FLAGS = train →
  parse_gin FLAGS GIN_PATH registered files (expanduser (model_dir FLAGS)) w
  = Ok (tt, w1) →
  get_model (Gin.bindings (gin w1)) = Ok model →
  Gin.bindings (gin w1) !! "train.data_provider" = Some value →
  construct value = Ok data_provider →
  ∃ w', run FLAGS GIN_PATH registered files expanduser get_model construct w
        = Ok (tt, w') ∧
        filter is_routine_call (calls w')
        = filter is_routine_call (calls w) ++
          [Train data_provider model (expanduser (model_dir FLAGS))
             (num_train_steps FLAGS) (master FLAGS) (use_tpu FLAGS)].
Proof.
  intros Hmode Hgin Hmodel Hbound Hcons.
  exists (mkWorld (gin w1)
            (calls w1 ++
             [Train data_provider model (expanduser (model_dir FLAGS))
                (num_train_steps FLAGS) (master FLAGS) (use_tpu FLAGS)])).
  split.
  - unfold run. rewrite Hmode.
    unfold mbind at 1, M_bind at 1, bind at 1. rewrite Hgin.
    unfold mbind at 1, M_bind at 1, bind at 1.
    unfold models_get_model, get_gin, lift, mbind, M_bind, bind.
    rewrite Hmodel.
    unfold train_util_train, gin_required, get_gin, lift, raise, log,
      mbind, M_bind, bind.
    change ("train" +:+ "." +:+ "data_provider") with "train.data_provider".
    by rewrite Hbound, Hcons.
  - apply parse_gin_Ok in Hgin as (Hcalls & _). simpl.
    rewrite Hcalls, !filter_app, parse_gin_calls_no_routine, app_nil_r. done.
Qed.
End RunTheorems.

Lemma parse_gin_layer_order_witness :
  ∃ w' : @DdspRun.World string string,
    DdspRun.parse_gin example_flags "gin" example_registered example_files
      "/home/u/tmp/ddsp" example_world = Ok (tt, w') ∧
    Gin.bindings (DdspRun.gin w')
    = list_to_map
        [("train.batch_size", "16");
         ("train.data_provider", "@data.NSynthTfds()");
         ("ddsp.core.cumsum.use_tpu", "False");
         ("train.steps_per_save", "300");
         ("train.learning_rate", "0.001")].
Proof.
  eexists. split; [vm_compute; reflexivity|].
  match goal with |- Gin.bindings (DdspRun.gin ?w1) = _ =>
    rewrite (proj2 (parse_gin_layer_order example_flags "gin" example_registered
                      example_files "/home/u/tmp/ddsp" example_world w1 tt
                      ltac:(vm_compute; reflexivity)))
  end.
  vm_compute. reflexivity.
Defined.

Lemma run_train_calls_train_once_witness :
  ∃ w' : @DdspRun.World string string,
    DdspRun.run example_flags "gin" example_registered example_files
      example_expanduser (fun _ => Ok "autoencoder") Ok example_world
    = Ok (tt, w') ∧
    filter DdspRun.is_routine_call (DdspRun.calls w')
    = [DdspRun.Train "@data.NSynthTfds()" "autoencoder" "/home/u/tmp/ddsp"
         1000000%Z "" false].
Proof.
  eapply (run_train_calls_train_once example_flags "gin" example_registered
            example_files example_expanduser (fun _ => Ok "autoencoder") Ok
            example_world).
  - reflexivity.
  - vm_compute. reflexivity.
  - reflexivity.
  - vm_compute. reflexivity.
  - reflexivity.
Defined.

(** ** Runs of an iterator *)

Section Yields.
Context {A : Type}.
Implicit Types (d : Dataset A) (l : list A).

Lemma yields_app d it l1 it' l2 it'' :
  yields d it l1 it' → yields d it' l2 it'' → yields d it (l1 ++ l2) it''.
Proof.
  induction 1 as [|it a it1 l it2 Hy _ IH]; intros H2; simpl; [done|].
  eapply yields_cons; eauto.
Qed.

Lemma yields_app_inv d it l1 l2 it'' :
  yields d it (l1 ++ l2) it'' →
  ∃ it', yields d it l1 it' ∧ yields d it' l2 it''.
Proof.
  revert it; induction l1 as [|a l1 IH]; intros it; simpl.
  - intros H. exists it. split; [apply yields_nil | done].
  - inversion 1 as [|? ? it1 ? ? Hy Hrest]; subst.
    destruct (IH _ Hrest) as (it' & H1 & H2).
    exists it'. split; [by eapply yields_cons | done].
Qed.

Lemma drains_app_inv d it l1 l2 :
  drains d it (l1 ++ l2) → ∃ it', yields d it l1 it' ∧ drains d it' l2.
Proof.
  revert it; induction l1 as [|a l1 IH]; intros it; simpl.
  - intros H. exists it. split; [apply yields_nil | done].
  - inversion 1 as [|? ? it1 ? Hy Hrest]; subst.
    destruct (IH _ Hrest) as (it' & H1 & H2).
    exists it'. split; [by eapply yields_cons | done].
Qed.

Lemma yields_drains d it l1 it' l2 :
  yields d it l1 it' → drains d it' l2 → drains d it (l1 ++ l2).
Proof.
  induction 1 as [|it a it1 l it2 Hy _ IH]; intros H2; simpl; [done|].
  eapply drains_yield; eauto.
Qed.

Lemma pull_yields d it l it' : yields d it l it' → pull d (length l) it = l.
Proof.
  induction 1 as [|it a it1 l it2 Hy _ IH]; simpl; [done|].
  by rewrite Hy, IH.
Qed.

(** An iterator drains the same way from any state with the same next
    step. *)
Lemma drains_same_step d it it' l :
  get_next d it = get_next d it' → drains d it l → drains d it' l.
Proof.
  intros Heq H. inversion H as [? He|? a it1 l' Hy Hrest]; subst.
  - apply drains_end. congruence.
  - eapply drains_yield; [|done]. congruence.
Qed.
End Yields.

(** ** Groups of a fixed size *)

Section Chunks.
Context {A : Type}.
Implicit Types (l : list A) (n : nat).

Lemma chunks_short n l : length l < n → chunks n l = [].
Proof. intros H. unfold chunks. by rewrite Nat.div_small. Qed.

Lemma chunks_app n l1 l2 :
  0 < n → length l1 = n → chunks n (l1 ++ l2) = l1 :: chunks n l2.
Proof.
  intros Hn Hl. unfold chunks. rewrite length_app, Hl.
  replace (n + length l2) with (1 * n + length l2) by lia.
  rewrite Nat.div_add_l by lia. simpl.
  rewrite take_app_length' by done. rewrite drop_app_length' by done. done.
Qed.

Lemma chunks_length n l : length (chunks n l) = length l / n.
Proof. unfold chunks. by rewrite length_reshape, length_replicate. Qed.

(** Splitting off the first group. *)
Lemma chunks_step n l :
  0 < n → n ≤ length l → chunks n l = take n l :: chunks n (drop n l).
Proof.
  intros Hn Hl. rewrite <-(take_drop n l) at 1.
  apply chunks_app; [done|]. rewrite length_take. lia.
Qed.

Lemma chunks_all_full n l b : 0 < n → b ∈ chunks n l → length b = n.
Proof.
  intros Hn. remember (length l) as m eqn:Hm. revert l Hm.
  induction (lt_wf m) as [m _ IH]; intros l -> Hb.
  destruct (decide (n ≤ length l)) as [Hle|Hgt].
  - rewrite chunks_step in Hb by done.
    apply elem_of_cons in Hb as [->|Hb].
    + rewrite length_take. lia.
    + eapply (IH (length (drop n l))); [|done|done]. rewrite length_drop. lia.
  - rewrite chunks_short in Hb by lia. by apply elem_of_nil in Hb.
Qed.

(** The groups, put end to end, are the longest prefix whose length is a
    multiple of [n]. *)
Lemma chunks_concat n l :
  0 < n → concat (chunks n l) = take (n * (length l / n)) l.
Proof.
  intros Hn. remember (length l) as m eqn:Hm. revert l Hm.
  induction (lt_wf m) as [m _ IH]; intros l ->.
  destruct (decide (n ≤ length l)) as [Hle|Hgt].
  - rewrite chunks_step by done. simpl.
    rewrite (IH (length (drop n l))); [| rewrite length_drop; lia | done].
    rewrite length_drop.
    replace (length l) with (1 * n + (length l - n)) at 2 by lia.
    rewrite Nat.div_add_l by lia.
    replace (n * (1 + (length l - n) / n)) with (n + n * ((length l - n) / n))
      by lia.
    by rewrite take_take_drop.
  - rewrite chunks_short by lia. rewrite Nat.div_small by lia.
    by rewrite Nat.mul_0_r.
Qed.

Lemma chunks_exact n l k :
  0 < n → length l = k * n → length (chunks n l) = k.
Proof. intros Hn Hl. rewrite chunks_length, Hl. by rewrite Nat.div_mul by lia. Qed.
End Chunks.

(** ** map and batch on runs *)

Section Stages.
Context {A : Type}.
Implicit Types (d : Dataset A) (l : list A).

Lemma map_drains {B} d (f : A → result B) (par : Z) it l (out : list B) :
  drains d it l → mapR f l = Ok out → drains (Tf.map f par d) it out.
Proof.
  intros H; revert out.
  induction H as [it He | it a it' l Hy _ IH]; intros out; simpl.
  - intros [= <-]. apply drains_end. simpl. by rewrite He.
  - destruct (f a) as [b|] eqn:Hb; [|done]. simpl.
    destruct (mapR f l) as [bs|]; [|done]. simpl. intros [= <-].
    eapply drains_yield; [|by apply IH]. simpl. by rewrite Hy, Hb.
Qed.

Lemma collect_yields d drop n acc it l it' :
  yields d it l it' → length l = n →
  collect d drop n acc it = Yield (rev acc ++ l) (Some it').
Proof.
  intros H; revert n acc.
  induction H as [it|it a it1 l it2 Hy _ IH]; intros n acc Hn; simpl in Hn;
    subst n; simpl.
  - by rewrite app_nil_r.
  - rewrite Hy, (IH (length l)) by done. simpl. by rewrite <-(assoc_L (++)).
Qed.

Lemma collect_drains_short d n acc it l :
  drains d it l → length l < n → collect d true n acc it = EndOfSequence.
Proof.
  intros H; revert n acc.
  induction H as [it He | it a it' l Hy _ IH]; intros n acc Hn;
    (destruct n as [|n]; [simpl in Hn; lia|]); simpl.
  - rewrite He. by destruct acc.
  - rewrite Hy. apply IH. simpl in Hn. lia.
Qed.

Lemma batch_yields d n it l it' k :
  0 < n → yields d it l it' → length l = k * n →
  yields (batch_dataset d true n) (Some it) (chunks n l) (Some it').
Proof.
  intros Hn. revert it l. induction k as [|k IH]; intros it l Hy Hl.
  - destruct l; [|done]. inversion Hy; subst.
    rewrite chunks_short by (simpl; lia). apply yields_nil.
  - rewrite chunks_step by lia.
    rewrite <-(take_drop n l) in Hy.
    apply yields_app_inv in Hy as (it1 & H1 & H2).
    eapply yields_cons.
    + simpl. rewrite (collect_yields _ _ _ _ _ _ _ H1); [done|].
      rewrite length_take. lia.
    + apply IH; [done|]. rewrite length_drop. lia.
Qed.

Lemma batch_drains d n it l :
  0 < n → drains d it l →
  drains (batch_dataset d true n) (Some it) (chunks n l).
Proof.
  intros Hn. remember (length l) as m eqn:Hm. revert it l Hm.
  induction (lt_wf m) as [m _ IH]; intros it l -> Hd.
  destruct (decide (n ≤ length l)) as [Hle|Hgt].
  - rewrite chunks_step by done.
    rewrite <-(take_drop n l) in Hd.
    apply drains_app_inv in Hd as (it1 & H1 & H2).
    eapply drains_yield.
    + simpl. rewrite (collect_yields _ _ _ _ _ _ _ H1); [done|].
      rewrite length_take. lia.
    + eapply (IH (length (drop n l))); [|done|done]. rewrite length_drop. lia.
  - rewrite chunks_short by lia. apply drains_end. simpl.
    eapply collect_drains_short; [done|lia].
Qed.
End Stages.

(** ** repeat *)

Section Repeat.
Context {A : Type}.
Implicit Types (d : Dataset A) (passes : list (list A)).

Lemma repeat_finite_drains d (count : Z) e passes i it l0 first :
  (0 ≤ count)%Z →
  i + 1 + length passes = Z.to_nat count →
  drains d it l0 →
  (∀ k p, passes !! k = Some p →
          drains d (make_iterator d (fork e (i + 1 + k))) p) →
  drains (repeat count d) (mkRepeatIter i it first e) (l0 ++ concat passes).
Proof.
  intros Hc. assert ((count <? 0)%Z = false) as Hneg by lia.
  revert i it l0 first.
  induction passes as [|p ps IHp]; intros i it l0 first Hlen Hd Hps;
    revert first; simpl in Hlen;
    induction Hd as [it He | it a it' l Hy _ IH]; intros first; simpl.
  - apply drains_end. simpl. rewrite Hneg.
    replace (Z.to_nat count - i) with 1 by lia. simpl. by rewrite He.
  - eapply drains_yield; [|apply IH]. simpl. rewrite Hneg.
    replace (Z.to_nat count - i) with 1 by lia. simpl. by rewrite Hy.
  - eapply (drains_same_step (repeat count d)
              (mkRepeatIter (S i) (make_iterator d (fork e (S i))) true e)).
    + simpl. rewrite Hneg.
      replace (Z.to_nat count - i) with (S (Z.to_nat count - S i)) by lia.
      simpl. by rewrite He.
    + apply IHp; [lia | |].
      * specialize (Hps 0 p eq_refl). by replace (i + 1 + 0) with (S i) in Hps by lia.
      * intros k q Hq. specialize (Hps (S k) q Hq).
        by replace (i + 1 + S k) with (S i + 1 + k) in Hps by lia.
  - eapply drains_yield; [|apply IH]. simpl. rewrite Hneg.
    replace (Z.to_nat count - i) with (S (Z.to_nat count - S i)) by lia.
    simpl. by rewrite Hy.
Qed.

(** [count] passes, one after the other, and then the end. *)
Lemma repeat_drains d (count : Z) e passes :
  (0 ≤ count)%Z →
  length passes = Z.to_nat count →
  (∀ k p, passes !! k = Some p → drains d (make_iterator d (fork e k)) p) →
  drains (repeat count d) (make_iterator (repeat count d) e) (concat passes).
Proof.
  intros Hc Hlen Hps. destruct passes as [|p ps].
  - apply drains_end. simpl in *.
    assert ((count <? 0)%Z = false) as -> by lia. by rewrite <-Hlen.
  - simpl. apply repeat_finite_drains; [done | simpl in Hlen; lia | |].
    + by apply (Hps 0).
    + intros k q Hq. apply (Hps (S k) q Hq).
Qed.

Lemma repeat_forever_yields d (count : Z) e passes i it l0 first :
  (count < 0)%Z →
  drains d it l0 →
  (first = true → l0 ≠ []) →
  (∀ k p, passes !! k = Some p →
          p ≠ [] ∧ drains d (make_iterator d (fork e (i + 1 + k))) p) →
  ∃ st, yields (repeat count d) (mkRepeatIter i it first e)
          (l0 ++ concat passes) st.
Proof.
  intros Hc. assert ((count <? 0)%Z = true) as Hneg by lia.
  revert i it l0 first.
  induction passes as [|p ps IHp]; intros i it l0 first Hd Hfirst Hps;
    revert first Hfirst;
    induction Hd as [it He | it a it' l Hy _ IH]; intros first Hfirst; simpl.
  - eexists. apply yields_nil.
  - destruct (IH false) as [st Hst]; [done|].
    exists st. eapply yields_cons; [|exact Hst].
    simpl. rewrite Hneg. unfold forever_next. simpl. by rewrite Hy.
  - destruct first; [by destruct Hfirst|].
    destruct (Hps 0 p eq_refl) as [Hne Hp].
    replace (i + 1 + 0) with (S i) in Hp by lia.
    inversion Hp as [|? a it1 p' Hy1 Hp']; subst; [done|].
    destruct (IHp (S i) it1 p' false) as [st Hst]; [done | done | |].
    { intros k q Hq. specialize (Hps (S k) q Hq).
      by replace (i + 1 + S k) with (S i + 1 + k) in Hps by lia. }
    exists st. simpl. eapply yields_cons; [|exact Hst].
    simpl. rewrite Hneg. unfold forever_next. simpl. by rewrite He, Hy1.
  - destruct (IH false) as [st Hst]; [done|].
    exists st. eapply yields_cons; [|exact Hst].
    simpl. rewrite Hneg. unfold forever_next. simpl. by rewrite Hy.
Qed.

Lemma concat_length_nonempty passes :
  Forall (λ p, p ≠ []) passes → length passes ≤ length (concat passes).
Proof.
  induction 1 as [|p ps Hp _ IH]; simpl; [lia|].
  rewrite length_app. destruct p; [done|]. simpl. lia.
Qed.

(** Passes can be laid out one by one when every iteration over the
    dataset comes to an end. *)
Lemma passes_exist (P : list A → Prop) d e i m :
  (∀ e', ∃ p, drains d (make_iterator d e') p ∧ P p) →
  ∃ passes, length passes = m ∧ Forall P passes ∧
            ∀ k p, passes !! k = Some p →
                   drains d (make_iterator d (fork e (i + k))) p.
Proof.
  intros Hall. revert i. induction m as [|m IH]; intros i.
  - exists []. repeat split; [by constructor|]. intros k p Hk. done.
  - destruct (Hall (fork e i)) as (p & Hp & HP).
    destruct (IH (S i)) as (ps & Hlen & HPs & Hps).
    exists (p :: ps). repeat split; [simpl; lia | by constructor|].
    intros [|k] q Hq; simpl in Hq.
    + injection Hq as <-. by rewrite Nat.add_0_r.
    + specialize (Hps k q Hq). by replace (i + S k) with (S i + k) by lia.
Qed.
End Repeat.

(** ** shuffle *)

Section Shuffle.
Context {A : Type}.
Implicit Types (d : Dataset A) (buf rest l : list A).

Lemma insert_swap_perm l j a x :
  l !! j = Some a → a :: <[j := x]> l ≡ₚ x :: l.
Proof.
  revert j; induction l as [|b l IH]; intros [|j]; simpl; try done.
  - intros [= ->]. apply Permutation_swap.
  - intros Hj. etrans; [apply Permutation_swap|].
    rewrite (IH _ Hj). apply Permutation_swap.
Qed.

Lemma pick_nil r : pick (@nil A) r = None.
Proof. done. Qed.

Lemma pick_cons first buf r :
  ∃ a buf', pick (first :: buf) r = Some (a, buf') ∧ a :: buf' ≡ₚ first :: buf.
Proof.
  unfold pick. set (i := r `mod` length (first :: buf)).
  assert (i < length (first :: buf)) as Hi
    by (apply Nat.mod_upper_bound; simpl; lia).
  destruct ((first :: buf) !! i) as [a|] eqn:Ha.
  - exists a, (tail (<[i := first]> (first :: buf))). split; [done|].
    destruct i as [|j]; simpl in *.
    + by injection Ha as ->.
    + by apply insert_swap_perm.
  - apply lookup_ge_None in Ha. lia.
Qed.

Lemma fill_drains d room buf it l :
  drains d it l →
  ∃ inp, fill d room buf it = Ok (buf ++ take room l, inp) ∧
         match inp with
         | Some it' => drains d it' (drop room l)
         | None => length l < room
         end.
Proof.
  intros H; revert room buf.
  induction H as [it He | it a it' l Hy Hd IH]; intros [|room] buf; simpl.
  - exists (Some it). rewrite app_nil_r. split; [done | by apply drains_end].
  - rewrite He. exists None. rewrite app_nil_r. split; [done | lia].
  - exists (Some it). rewrite app_nil_r. split; [done | by eapply drains_yield].
  - rewrite Hy. destruct (IH room (buf ++ [a])) as (inp & Hfill & Hinp).
    exists inp. rewrite Hfill, <-(assoc_L (++)). split; [done|].
    destruct inp; [done | lia].
Qed.

Lemma shuffle_filled d W buf inp rest :
  0 < W → input_rest d inp rest →
  ∃ inp1,
    match inp with
    | Some it => fill d (W - length buf) buf it
    | None => Ok (buf, None)
    end = Ok (buf ++ take (W - length buf) rest, inp1) ∧
    input_rest d inp1 (drop (W - length buf) rest) ∧
    (buf ++ take (W - length buf) rest = [] → drop (W - length buf) rest = []).
Proof.
  intros HW Hrest. destruct inp as [it|]; simpl in Hrest.
  - destruct (fill_drains d (W - length buf) buf it rest Hrest)
      as (inp1 & Hfill & Hinp).
    exists inp1. split; [done|]. split.
    + destruct inp1; simpl; [done|]. apply drop_ge. lia.
    + intros [-> Htake]%app_eq_nil. simpl in *.
      destruct rest; [by rewrite drop_nil|].
      rewrite Nat.sub_0_r in Htake. destruct W; [lia | done].
  - subst rest. exists None. by rewrite take_nil, drop_nil, app_nil_r.
Qed.

(** One step of a shuffling iterator that has something left: the buffer
    is topped up from the input, one of its elements is produced, and the
    others stay. *)
Lemma shuffle_step d W buf inp rest seed drawn :
  0 < W → input_rest d inp rest →
  let buf1 := buf ++ take (W - length buf) rest in
  let rest1 := drop (W - length buf) rest in
  (buf1 = [] ∧ rest1 = [] ∧
   get_next (shuffle_dataset d W) (mkShuffleIter buf inp seed drawn)
   = EndOfSequence) ∨
  (∃ a buf' inp1,
     a :: buf' ≡ₚ buf1 ∧ input_rest d inp1 rest1 ∧
     get_next (shuffle_dataset d W) (mkShuffleIter buf inp seed drawn)
     = Yield a (mkShuffleIter buf' inp1 seed (S drawn))).
Proof.
  intros HW Hrest buf1 rest1.
  destruct (shuffle_filled d W buf inp rest HW Hrest)
    as (inp1 & Hfill & Hrest1 & Hnil).
  fold buf1 in Hfill, Hnil. fold rest1 in Hrest1, Hnil.
  destruct buf1 as [|first t] eqn:Hbuf1.
  - left. split; [done|]. split; [by apply Hnil|].
    simpl. unfold shuffle_next. simpl. by rewrite Hfill.
  - right.
    destruct (pick_cons first t (draw seed drawn)) as (a & buf' & Hpick & Hperm).
    exists a, buf', inp1. split; [done|]. split; [done|].
    simpl. unfold shuffle_next. simpl. by rewrite Hfill, Hpick.
Qed.

(** One iteration over a shuffled dataset produces a permutation of
    what its buffer holds and its input still has to give. *)
Lemma shuffle_drains_from d W buf inp rest seed drawn :
  0 < W → input_rest d inp rest →
  ∃ out, drains (shuffle_dataset d W) (mkShuffleIter buf inp seed drawn) out ∧
         out ≡ₚ buf ++ rest.
Proof.
  intros HW. remember (length (buf ++ rest)) as m eqn:Hm.
  revert buf inp rest drawn Hm.
  induction (lt_wf m) as [m _ IH]; intros buf inp rest drawn -> Hrest.
  pose proof (take_drop (W - length buf) rest) as Hsplit.
  destruct (shuffle_step d W buf inp rest seed drawn HW Hrest)
    as [(Hb & Hr & Hnext) | (a & buf' & inp1 & Hperm & Hrest1 & Hnext)].
  - exists []. split; [by apply drains_end|].
    rewrite <-Hsplit, (assoc_L (++)), Hb, Hr. done.
  - destruct (IH (length (buf' ++ drop (W - length buf) rest)))
      with (buf := buf') (inp := inp1) (rest := drop (W - length buf) rest)
           (drawn := S drawn) as (out & Hout & Hp); [|done|done|].
    { apply Permutation_length in Hperm. rewrite <-Hsplit at 2.
      rewrite !length_app in *. simpl in *. lia. }
    exists (a :: out). split; [by eapply drains_yield|].
    rewrite Hp, app_comm_cons, Hperm, <-(assoc_L (++)), Hsplit. done.
Qed.

(** The look-ahead of a shuffling iterator: its first [k + 1] elements
    are drawn from the buffer and from the elements read to top it up,
    [k] of them after the first fill. *)
Lemma shuffle_window_from d W buf inp rest seed drawn out k :
  0 < W → length buf ≤ W → input_rest d inp rest →
  drains (shuffle_dataset d W) (mkShuffleIter buf inp seed drawn) out →
  take (S k) out ⊆+ buf ++ take (W - length buf + k) rest.
Proof.
  intros HW. revert buf inp rest drawn k.
  induction out as [|a out IH]; intros buf inp rest drawn k Hlen Hrest Hd.
  { apply submseteq_nil_l. }
  destruct (shuffle_step d W buf inp rest seed drawn HW Hrest)
    as [(_ & _ & Hnext) | (a' & buf' & inp1 & Hperm & Hrest1 & Hnext)];
    inversion Hd as [|? ? st' ? Hy Hd']; subst; [congruence|].
  rewrite Hnext in Hy. injection Hy as <- <-.
  assert (length buf' + 1 = length buf + length (take (W - length buf) rest))
    as Hlen'.
  { apply Permutation_length in Hperm. rewrite length_app in Hperm.
    simpl in Hperm. lia. }
  rewrite length_take in Hlen'.
  destruct k as [|k].
  - rewrite Nat.add_0_r. rewrite <-Hperm. simpl. rewrite take_0.
    apply submseteq_skip, submseteq_nil_l.
  - change (take (S (S k)) (a' :: out)) with (a' :: take (S k) out).
    etrans.
    { apply submseteq_skip.
      apply (IH buf' inp1 (drop (W - length buf) rest) (S drawn) k);
        [lia | done | done]. }
    rewrite app_comm_cons, Hperm, <-(assoc_L (++)), take_take_drop.
    destruct (decide (W - length buf ≤ length rest)) as [Hle|Hgt].
    + replace (W - length buf + (W - length buf' + k))
        with (W - length buf + S k) by lia. done.
    + rewrite !take_ge by lia. done.
Qed.

Lemma shuffle_drains d W e l :
  0 < W → drains d (make_iterator d (fork e 0)) l →
  ∃ out, drains (shuffle_dataset d W) (make_iterator (shuffle_dataset d W) e) out ∧
         out ≡ₚ l.
Proof. intros HW Hl. by apply (shuffle_drains_from d W [] (Some _) l). Qed.

(** The [k]-th element of a shuffled pass, counting from zero, is among
    the first [buffer_size + k] elements of the input. *)
Lemma shuffle_window d W e l out k :
  0 < W → drains d (make_iterator d (fork e 0)) l →
  drains (shuffle_dataset d W) (make_iterator (shuffle_dataset d W) e) out →
  take (S k) out ⊆+ take (W + k) l.
Proof.
  intros HW Hl Hout.
  pose proof (shuffle_window_from d W [] (Some (make_iterator d (fork e 0))) l
                e 0 out k HW) as H.
  simpl in H. rewrite Nat.sub_0_r in H. apply H; [lia | done | done].
Qed.

Lemma shuffle_Ok d (buffer_size : Z) sd :
  shuffle buffer_size d = Ok sd →
  (1 ≤ buffer_size)%Z ∧ sd = shuffle_dataset d (Z.to_nat buffer_size).
Proof.
  unfold shuffle. destruct (buffer_size <? 1)%Z eqn:E; [done|].
  intros [= <-]. split; [lia | done].
Qed.
End Shuffle.

(** ** The pipeline of [get_batch] *)

Section Pipeline.
Context {A : Type}.
Implicit Types (d : Dataset A) (passes : list (list A)).

Lemma batched_repeat_finite (P : list A → Prop) d (count : Z) n e :
  (0 ≤ count)%Z → 0 < n →
  (∀ e', ∃ p, drains d (make_iterator d e') p ∧ P p) →
  ∃ passes,
    length passes = Z.to_nat count ∧ Forall P passes ∧
    drains (batch_dataset (repeat count d) true n)
      (make_iterator (batch_dataset (repeat count d) true n) e)
      (chunks n (concat passes)).
Proof.
  intros Hc Hn Hall.
  destruct (passes_exist P d e 0 (Z.to_nat count) Hall) as (ps & Hlen & HP & Hps).
  exists ps. split; [done|]. split; [done|].
  simpl. apply batch_drains; [done|].
  apply repeat_drains; [done | done |]. exact Hps.
Qed.

Lemma batched_repeat_forever (P : list A → Prop) d (count : Z) n e k :
  (count < 0)%Z → 0 < n →
  (∀ e', ∃ p, drains d (make_iterator d e') p ∧ P p ∧ p ≠ []) →
  ∃ passes,
    length passes = S (k * n) ∧ Forall P passes ∧
    k * n ≤ length (concat passes) ∧
    elements (batch_dataset (repeat count d) true n) e k
    = chunks n (take (k * n) (concat passes)) ∧
    length (elements (batch_dataset (repeat count d) true n) e k) = k.
Proof.
  intros Hc Hn Hall.
  destruct (passes_exist (λ p, P p ∧ p ≠ []) d e 0 (S (k * n)) Hall)
    as (ps & Hlen & HP & Hps).
  assert (Forall (λ p, p ≠ []) ps) as Hne
    by (eapply Forall_impl; [exact HP|]; by intros ? [? ?]).
  assert (k * n ≤ length (concat ps)) as Hlong.
  { pose proof (concat_length_nonempty ps Hne). lia. }
  exists ps. split; [done|]. split; [eapply Forall_impl; [exact HP|]; by intros ? [? ?]|].
  split; [done|].
  destruct ps as [|p0 ps]; [done|].
  destruct (repeat_forever_yields d count e ps 0
              (make_iterator d (fork e 0)) p0 true) as [st Hst]; [done | | | |].
  { by apply (Hps 0). }
  { intros _. by inversion Hne. }
  { intros j q Hq. split.
    - rewrite Forall_forall in Hne. apply Hne. apply elem_of_cons. right.
      by eapply list_elem_of_lookup_2.
    - apply (Hps (S j) q Hq). }
  change (p0 ++ concat ps) with (concat (p0 :: ps)) in Hst.
  rewrite <-(take_drop (k * n) (concat (p0 :: ps))) in Hst.
  apply yields_app_inv in Hst as (it1 & H1 & _).
  assert (length (take (k * n) (concat (p0 :: ps))) = k * n) as Htake
    by (rewrite length_take; lia).
  pose proof (batch_yields _ n _ _ _ k Hn H1 Htake) as Hb.
  apply pull_yields in Hb. rewrite (chunks_exact n _ k) in Hb by done.
  change (elements (batch_dataset (repeat count d) true n) e k
          = chunks n (take (k * n) (concat (p0 :: ps)))) in Hb.
  rewrite Hb. split; [done|]. by apply chunks_exact.
Qed.

(** Endless repetition of a dataset that has nothing ends at once. *)
Lemma repeat_forever_empty d (count : Z) e :
  (count < 0)%Z → drains d (make_iterator d (fork e 0)) [] →
  drains (repeat count d) (make_iterator (repeat count d) e) [].
Proof.
  intros Hc Hd. inversion Hd as [? He|]; subst.
  apply drains_end. simpl. assert ((count <? 0)%Z = true) as -> by lia.
  unfold forever_next. simpl. by rewrite He.
Qed.

Lemma Forall_eq_replicate (x : list A) passes :
  Forall (λ p, p = x) passes → passes = replicate (length passes) x.
Proof. induction 1 as [|p ps -> _ IH]; simpl; [done | by f_equal]. Qed.

Lemma concat_length_uniform passes m :
  Forall (λ p, length p = m) passes → length (concat passes) = length passes * m.
Proof.
  induction 1 as [|p ps Hp _ IH]; simpl; [done|]. rewrite length_app. lia.
Qed.
End Pipeline.

Lemma mapR_Permutation {A B} (f : A → result B) (l rs : list A) (prs : list B) :
  l ≡ₚ rs → mapR f rs = Ok prs → ∃ pl, mapR f l = Ok pl ∧ pl ≡ₚ prs.
Proof.
  intros H; revert prs.
  induction H as [|x l l' _ IH|x y l|l m l' _ IH1 _ IH2]; intros prs; simpl.
  - intros [= <-]. by exists [].
  - destruct (f x) as [b|]; [|done]. simpl.
    destruct (mapR f l') as [bs|]; [|done]. simpl. intros [= <-].
    destruct (IH bs eq_refl) as (pl & -> & Hp). simpl.
    exists (b :: pl). split; [done | by constructor].
  - destruct (f x) as [b|]; [|done]. simpl.
    destruct (f y) as [c|]; [|done]. simpl.
    destruct (mapR f l) as [bs|]; [|done]. simpl. intros [= <-].
    exists (c :: b :: bs). split; [done | apply Permutation_swap].
  - intros Hprs. destruct (IH2 prs Hprs) as (pm & Hm & Hpm).
    destruct (IH1 pm Hm) as (pl & Hl & Hpl).
    exists pl. split; [done | by etrans].
Qed.

Section GetBatch.
Context {Raw Rec : Type}.
Variable self : DataProvider Raw Rec.

(** The stages [get_batch] builds. *)
Lemma get_batch_Ok (batch_size : Z) (shuffle : bool) (repeats : Z)
    (ds : Dataset (list Rec)) :
  get_batch self batch_size shuffle repeats = Ok ds →
  ∃ src,
    get_dataset self shuffle = Ok src ∧
    (1 ≤ batch_size)%Z ∧
    ds = batch_dataset
           (repeat repeats
              (if shuffle
               then shuffle_dataset
                      (Tf.map (get_preprocess_fn self) AUTOTUNE src)
                      (Z.to_nat 10000)
               else Tf.map (get_preprocess_fn self) AUTOTUNE src))
           true (Z.to_nat batch_size).
Proof.
  unfold get_batch. intros Hds.
  destruct (get_dataset self shuffle) as [src|]; [|done]. simpl in Hds.
  exists src. split; [done|].
  destruct shuffle; simpl in Hds.
  - destruct (batch batch_size true _) as [bd|] eqn:Hbd; [|done].
    simpl in Hds. injection Hds as <-.
    apply batch_Ok in Hbd as [Hpos ->]. done.
  - destruct (batch batch_size true _) as [bd|] eqn:Hbd; [|done].
    simpl in Hds. injection Hds as <-.
    apply batch_Ok in Hbd as [Hpos ->]. done.
Qed.

(** Every pass of the stage that feeds [repeat] gives the preprocessed
    records, as a permutation. *)
Lemma stage_passes (shuffle : bool) (src : Dataset Raw) (rs : list Raw)
    (prs : list Rec) (e : Entropy) :
  (∀ e', ∃ l, drains src (make_iterator src e') l ∧ l ≡ₚ rs) →
  mapR (get_preprocess_fn self) rs = Ok prs →
  let stage :=
    if shuffle
    then shuffle_dataset (Tf.map (get_preprocess_fn self) AUTOTUNE src)
           (Z.to_nat 10000)
    else Tf.map (get_preprocess_fn self) AUTOTUNE src in
  ∃ p, drains stage (make_iterator stage e) p ∧ p ≡ₚ prs.
Proof.
  intros Hsrc Hpre. destruct shuffle; simpl.
  - destruct (Hsrc (fork e 0)) as (l & Hl & Hperm).
    destruct (mapR_Permutation _ _ _ _ Hperm Hpre) as (pl & Hpl & Hplp).
    destruct (shuffle_drains (Tf.map (get_preprocess_fn self) AUTOTUNE src)
                (Z.to_nat 10000) e pl) as (out & Hout & Hp); [lia | |].
    { by eapply map_drains. }
    exists out. split; [done | by etrans].
  - destruct (Hsrc e) as (l & Hl & Hperm).
    destruct (mapR_Permutation _ _ _ _ Hperm Hpre) as (pl & Hpl & Hplp).
    exists pl. split; [by eapply map_drains | done].
Qed.
End GetBatch.

(** C2 (amended).  Take a provider whose source gives the records [rs],
    in some order, on every pass, and whose preprocessing succeeds on them
    with results [prs].  With [repeats = N ≥ 0] the batches of [get_batch]
    come to an end, and put end to end they are the first
    [B * (N * length rs / B)] records of [N] passes, each pass a
    permutation of [prs]: all [N] passes exactly when [B] divides
    [N * length rs], the remainder being dropped otherwise.  With
    [repeats = -1] and at least one record, the sequence is unbounded:
    for every [n], the first [n] batches exist and are the first [n * B]
    records of as many passes as it takes. *)
Theorem get_batch_repeats_passes {Raw Rec} (self : DataProvider Raw Rec)
    (batch_size : Z) (shuffle : bool) (repeats : Z)
    (src : Dataset Raw) (ds : Dataset (list Rec))
    (rs : list Raw) (prs : list Rec) (e : Entropy) :
  get_dataset self shuffle = Ok src →
  (∀ e', ∃ l, drains src (make_iterator src e') l ∧ l ≡ₚ rs) →
  mapR (get_preprocess_fn self) rs = Ok prs →
  get_batch self batch_size shuffle repeats = Ok ds →
  let B := Z.to_nat batch_size in
  ((0 ≤ repeats)%Z →
   ∃ passes,
     length passes = Z.to_nat repeats ∧
     Forall (λ p, p ≡ₚ prs) passes ∧
     drains ds (make_iterator ds e) (chunks B (concat passes)) ∧
     concat (chunks B (concat passes))
     = take (B * (Z.to_nat repeats * length rs / B)) (concat passes) ∧
     ((Z.to_nat repeats * length rs) `mod` B = 0 →
      concat (chunks B (concat passes)) = concat passes)) ∧
  (repeats = (-1)%Z → rs ≠ [] →
   ∀ n, ∃ passes,
     Forall (λ p, p ≡ₚ prs) passes ∧
     n * B ≤ length (concat passes) ∧
     elements ds e n = chunks B (take (n * B) (concat passes)) ∧
     length (elements ds e n) = n).
Proof.
  intros Hsrc Hall Hpre Hds B.
  apply get_batch_Ok in Hds as (src' & Hsrc' & Hpos & ->).
  assert (src' = src) as -> by congruence.
  assert (0 < B) as HB by (unfold B; lia).
  pose proof (λ e', stage_passes self shuffle src rs prs e' Hall Hpre) as Hstage.
  simpl in Hstage.
  set (stage := if shuffle then _ else _) in *.
  assert (length prs = length rs) as Hlen by (by eapply mapR_Ok_length).
  split.
  - intros Hrep.
    destruct (batched_repeat_finite (λ p, p ≡ₚ prs) stage repeats B e Hrep HB
                Hstage)
      as (passes & Hn & HP & Hd).
    exists passes. split; [done|]. split; [done|]. split; [exact Hd|].
    assert (length (concat passes) = Z.to_nat repeats * length rs) as Htotal.
    { rewrite <-Hn. apply concat_length_uniform.
      eapply Forall_impl; [exact HP|]. intros p Hp.
      by rewrite (Permutation_length Hp). }
    rewrite chunks_concat, Htotal by done. split; [done|].
    intros Hdiv. rewrite take_ge; [done|].
    rewrite Htotal. pose proof (Nat.div_mod_eq (Z.to_nat repeats * length rs) B).
    lia.
  - intros -> Hne n.
    assert (∀ e', ∃ p, drains stage (make_iterator stage e') p ∧
                       p ≡ₚ prs ∧ p ≠ []) as Hstage'.
    { intros e'. destruct (Hstage e') as (p & Hp & Hperm).
      exists p. split; [done|]. split; [done|].
      intros ->. apply Permutation_length in Hperm. simpl in Hperm.
      destruct rs; [done | simpl in *; lia]. }
    destruct (batched_repeat_forever (λ p, p ≡ₚ prs) stage (-1) B e n
                ltac:(lia) HB Hstage')
      as (passes & _ & HP & Hlong & Hel & Hk).
    exists passes. done.
Qed.

Lemma get_batch_repeats_passes_witness :
  let ds := batch_dataset (repeat 2 (Tf.map Ok AUTOTUNE (from_list [1; 2; 3])))
              true 2 in
  ∃ passes,
    length passes = 2 ∧
    Forall (λ p, p ≡ₚ [1; 2; 3]) passes ∧
    drains ds (make_iterator ds seed0) (chunks 2 (concat passes)).
Proof.
  intros ds.
  pose proof (get_batch_repeats_passes (list_provider [1; 2; 3]) 2 false 2
                (from_list [1; 2; 3]) ds [1; 2; 3] [1; 2; 3] seed0
                eq_refl) as H.
  destruct H as [H _]; [| reflexivity | reflexivity |].
  - intros e'. exists [1; 2; 3]. split; [apply drains_from_list | done].
  - destruct H as (passes & H1 & H2 & H3 & _); [lia|].
    exists passes. done.
Defined.

(** C2 does not hold as stated.  One pass over three records in batches
    of two ends after the batch [[1; 2]]: the third record is never
    yielded, so less than one pass is.  And endless repetition of a
    provider without records ends at once. *)
Lemma get_batch_repeats_counterexample :
  (∃ ds, get_batch (list_provider [1; 2; 3]) 2 false 1 = Ok ds ∧
         drains ds (make_iterator ds seed0) [[1; 2]] ∧
         concat [[1; 2]] ≠ concat (replicate 1 [1; 2; 3])) ∧
  (∃ ds, get_batch (list_provider (@nil nat)) 2 false (-1) = Ok ds ∧
         drains ds (make_iterator ds seed0) []).
Proof.
  split.
  - eexists. split; [reflexivity|]. split; [|discriminate].
    eapply drains_yield; [vm_compute; reflexivity|].
    apply drains_end. vm_compute. reflexivity.
  - eexists. split; [reflexivity|].
    apply drains_end. vm_compute. reflexivity.
Qed.

(** C4.  Without [shuffle], [get_batch] builds no shuffling stage: when
    the source gives its records in the same order on every run, so does
    [get_batch], whatever the seed, and for a finite repeat count the
    batches are the groups of the preprocessed records in source order.
    With [shuffle], a shuffling stage with a buffer of exactly 10000
    records sits between preprocessing and repetition: every pass it
    produces is a permutation of the pass it reads, and its [k]-th record
    (from zero) is one of the first [10000 + k] records read. *)
Theorem get_batch_shuffle_stage {Raw Rec} (self : DataProvider Raw Rec)
    (batch_size repeats : Z) :
  (∀ (src : Dataset Raw) (ds : Dataset (list Rec)) (rs : list Raw)
     (prs : list Rec),
     get_dataset self false = Ok src →
     get_batch self batch_size false repeats = Ok ds →
     (∀ e', drains src (make_iterator src e') rs) →
     mapR (get_preprocess_fn self) rs = Ok prs →
     let records := Tf.map (get_preprocess_fn self) AUTOTUNE src in
     ds = batch_dataset (repeat repeats records) true (Z.to_nat batch_size) ∧
     (∀ e', drains records (make_iterator records e') prs) ∧
     (∀ e1 e2 n, elements ds e1 n = elements ds e2 n) ∧
     ((0 ≤ repeats)%Z →
      ∀ e n, elements ds e n
             = take n (chunks (Z.to_nat batch_size)
                         (concat (replicate (Z.to_nat repeats) prs))))) ∧
  (∀ (src : Dataset Raw) (ds : Dataset (list Rec)),
     get_dataset self true = Ok src →
     get_batch self batch_size true repeats = Ok ds →
     let records := Tf.map (get_preprocess_fn self) AUTOTUNE src in
     let shuffled := shuffle_dataset records (Z.to_nat 10000) in
     ds = batch_dataset (repeat repeats shuffled) true (Z.to_nat batch_size) ∧
     ∀ e' l,
       drains records (make_iterator records (fork e' 0)) l →
       ∃ p, drains shuffled (make_iterator shuffled e') p ∧
            p ≡ₚ l ∧
            ∀ k, take (S k) p ⊆+ take (Z.to_nat 10000 + k) l).
Proof.
  split.
  - intros src ds rs prs Hsrc Hds Hdet Hpre records.
    apply get_batch_Ok in Hds as (src' & Hsrc' & Hpos & ->).
    assert (src' = src) as -> by congruence. fold records.
    assert (0 < Z.to_nat batch_size) as HB by lia.
    assert (∀ e', drains records (make_iterator records e') prs) as Hrec.
    { intros e'.
      apply (map_drains src _ _ (make_iterator src e') rs); [apply Hdet | done]. }
    split; [done|]. split; [done|].
    assert ((0 ≤ repeats)%Z →
            ∀ e n, elements (batch_dataset (repeat repeats records) true
                               (Z.to_nat batch_size)) e n
                   = take n (chunks (Z.to_nat batch_size)
                               (concat (replicate (Z.to_nat repeats) prs))))
      as Hfinite.
    { intros Hrep e n.
      destruct (batched_repeat_finite (λ p, p = prs) records repeats
                  (Z.to_nat batch_size) e Hrep HB)
        as (passes & Hn & HP & Hd).
      { intros e'. exists prs. split; [apply Hrec | done]. }
      apply Forall_eq_replicate in HP. rewrite Hn in HP. subst passes.
      by apply pull_drains. }
    split; [|done].
    intros e1 e2 n. destruct (Z_lt_le_dec repeats 0) as [Hneg|Hrep].
    + destruct prs as [|r prs'].
      * assert (∀ e, elements (batch_dataset (repeat repeats records) true
                                 (Z.to_nat batch_size)) e n
                     = take n (chunks (Z.to_nat batch_size) (@nil Rec))) as Hempty.
        { intros e. apply pull_drains.
          apply (batch_drains (repeat repeats records) _
                   (make_iterator (repeat repeats records) e)); [done|].
          apply (repeat_forever_empty records); [done | apply Hrec]. }
        by rewrite !Hempty.
      * assert (∀ e, elements (batch_dataset (repeat repeats records) true
                                 (Z.to_nat batch_size)) e n
                     = chunks (Z.to_nat batch_size)
                         (take (n * Z.to_nat batch_size)
                            (concat (replicate (S (n * Z.to_nat batch_size))
                                       (r :: prs'))))) as Hcycle.
        { intros e.
          destruct (batched_repeat_forever (λ p, p = r :: prs') records repeats
                      (Z.to_nat batch_size) e n Hneg HB)
            as (passes & Hn & HP & _ & Hel & _).
          { intros e'. exists (r :: prs'). split; [apply Hrec | done]. }
          apply Forall_eq_replicate in HP. rewrite Hn in HP. by subst passes. }
        by rewrite !Hcycle.
    + by rewrite !Hfinite.
  - intros src ds Hsrc Hds records shuffled.
    apply get_batch_Ok in Hds as (src' & Hsrc' & Hpos & ->).
    assert (src' = src) as -> by congruence. fold records. fold shuffled.
    split; [done|].
    intros e' l Hl.
    destruct (shuffle_drains records (Z.to_nat 10000) e' l) as (p & Hp & Hperm);
      [lia | done |].
    exists p. split; [done|]. split; [done|].
    intros k. eapply shuffle_window; [lia | done | done].
Qed.

Lemma get_batch_shuffle_stage_witness :
  let records := Tf.map Ok AUTOTUNE (from_list [1; 2; 3]) in
  let shuffled := shuffle_dataset records (Z.to_nat 10000) in
  ∃ p, drains shuffled (make_iterator shuffled seed0) p ∧ p ≡ₚ [1; 2; 3].
Proof.
  intros records shuffled.
  destruct (proj2 (get_batch_shuffle_stage (list_provider [1; 2; 3]) 2 (-1))
              (from_list [1; 2; 3])
              (batch_dataset (repeat (-1) shuffled) true 2)
              eq_refl eq_refl) as [_ H].
  destruct (H seed0 [1; 2; 3]) as (p & Hp & Hperm & _).
  - apply (map_drains _ _ _ _ [1; 2; 3]); [apply drains_from_list | reflexivity].
  - exists p. done.
Defined.

(** * Further properties of the data providers *)

Import Failing.

(** ** Exceptions of the source and of [params] *)

(** X1.  An exception raised by [get_dataset] is the exception of
    [get_batch], whatever the batch size (also an invalid one) and the
    repeat count, and of the function [get_input_fn] returns when
    [params] has a batch size. *)
Theorem get_dataset_error_propagates {Raw Rec} (self : DataProvider Raw Rec)
    (shuffle : bool) (err : exn) :
  get_dataset self shuffle = Raise err →
  (∀ batch_size repeats,
     get_batch self batch_size shuffle repeats = Raise err) ∧
  (∀ repeats params batch_size,
     params !! "batch_size" = Some batch_size →
     get_input_fn self shuffle repeats params = Raise err).
Proof.
  intros Hsrc. split.
  - intros batch_size repeats. unfold get_batch. by rewrite Hsrc.
  - intros repeats params batch_size Hb.
    unfold get_input_fn, getitem, get_batch. rewrite Hb. simpl.
    by rewrite Hsrc.
Qed.

Lemma get_dataset_error_propagates_witness :
  get_batch (DataProvider_base nat) 0 true (-1) = Raise NotImplementedError.
Proof.
  apply (proj1 (get_dataset_error_propagates (DataProvider_base nat) true
                  NotImplementedError eq_refl)).
Defined.

(** X2.  Without the key ['batch_size'] in [params], the function
    [get_input_fn] returns raises [KeyError] for that key, for every
    provider: the key is read before the provider is asked for
    anything. *)
Theorem get_input_fn_missing_batch_size {Raw Rec} (self : DataProvider Raw Rec)
    (shuffle : bool) (repeats : Z) (params : gmap string Z) :
  params !! "batch_size" = None →
  get_input_fn self shuffle repeats params = Raise (KeyError "batch_size").
Proof. intros Hb. unfold get_input_fn, getitem. by rewrite Hb. Qed.

Lemma get_input_fn_missing_batch_size_witness :
  get_input_fn (DataProvider_base nat) true (-1) {[ "batch" := 8%Z ]}
  = Raise (KeyError "batch_size").
Proof.
  apply (get_input_fn_missing_batch_size (DataProvider_base nat)).
  reflexivity.
Defined.

Lemma pull_map_total {A B} (d : Dataset A) (g : A → B) (par : Z) n it :
  pull (Tf.map (λ x, Ok (g x)) par d) n it = g <$> pull d n it.
Proof.
  revert it; induction n as [|n IH]; intros it; simpl; [done|].
  destruct (get_next d it) as [a s| |]; simpl; [|done|done].
  by rewrite IH.
Qed.

(** X3.  The pairs of [get_input_fn] are the batches of [get_batch] for
    the same batch size, in the same order and as many, each paired with
    itself. *)
Theorem get_input_fn_batches {Raw Rec} (self : DataProvider Raw Rec)
    (shuffle : bool) (repeats : Z) (params : gmap string Z) (batch_size : Z)
    (bd : Dataset (list Rec)) :
  params !! "batch_size" = Some batch_size →
  get_batch self batch_size shuffle repeats = Ok bd →
  ∃ ds, get_input_fn self shuffle repeats params = Ok ds ∧
        ∀ e n, elements ds e n = (λ b, (b, b)) <$> elements bd e n.
Proof.
  intros Hb Hbd. unfold get_input_fn, getitem. rewrite Hb. simpl.
  rewrite Hbd. simpl. eexists. split; [done|].
  intros e n. apply pull_map_total.
Qed.

Lemma get_input_fn_batches_witness :
  ∃ ds, get_input_fn (list_provider [1; 2; 3]) false 2
          {[ "batch_size" := 2%Z ]} = Ok ds ∧
        ∀ e n, elements ds e n
               = (λ b, (b, b)) <$>
                 elements (batch_dataset
                             (repeat 2 (Tf.map Ok AUTOTUNE (from_list [1; 2; 3])))
                             true 2) e n.
Proof.
  apply (get_input_fn_batches (list_provider [1; 2; 3]) false 2
           {[ "batch_size" := 2%Z ]} 2); reflexivity.
Defined.

(** ** How many batches, and which records *)

Lemma concat_passes_perm {A} (prs : list A) (passes : list (list A)) :
  Forall (λ p, p ≡ₚ prs) passes →
  concat passes ≡ₚ concat (replicate (length passes) prs).
Proof.
  induction 1 as [|p ps Hp _ IH]; simpl; [done|]. by rewrite Hp, IH.
Qed.

Section Counting.
Context {Raw Rec : Type}.
Variable self : DataProvider Raw Rec.

(** X4.  With [repeats = N ≥ 0] over [n] records, [get_batch] yields
    [N * n / B] batches, rounded down, and no more, with or without
    shuffling and whatever the seed: none for [N = 0] and none when the
    batch size exceeds [N * n]. *)
Theorem get_batch_number_of_batches (batch_size : Z) (shuffle : bool)
    (repeats : Z) (src : Dataset Raw) (ds : Dataset (list Rec))
    (rs : list Raw) (prs : list Rec) (e : Entropy) (k : nat) :
  get_dataset self shuffle = Ok src →
  (∀ e', ∃ l, drains src (make_iterator src e') l ∧ l ≡ₚ rs) →
  mapR (get_preprocess_fn self) rs = Ok prs →
  get_batch self batch_size shuffle repeats = Ok ds →
  (0 ≤ repeats)%Z →
  length (elements ds e k)
  = k `min` (Z.to_nat repeats * length rs / Z.to_nat batch_size).
Proof.
  intros Hsrc Hall Hpre Hds Hrep.
  apply get_batch_Ok in Hds as (src' & Hsrc' & Hpos & ->).
  assert (src' = src) as -> by congruence.
  pose proof (λ e', stage_passes self shuffle src rs prs e' Hall Hpre) as Hstage.
  simpl in Hstage. set (stage := if shuffle then _ else _) in *.
  destruct (batched_repeat_finite (λ p, p ≡ₚ prs) stage repeats
              (Z.to_nat batch_size) e Hrep ltac:(lia) Hstage)
    as (passes & Hn & HP & Hd).
  unfold elements. rewrite (pull_drains _ _ _ _ Hd).
  rewrite length_take, chunks_length. f_equal. f_equal.
  rewrite <-Hn, <-(mapR_Ok_length _ _ _ Hpre).
  apply concat_length_uniform.
  eapply Forall_impl; [exact HP|]. intros p Hp.
  by rewrite (Permutation_length Hp).
Qed.

(** X5.  With [repeats = N ≥ 0], the records of all the batches together
    are a sub-multiset of [N] copies of the preprocessed records: no
    record is yielded more than [N] times.  When the batch size divides
    [N * n] they are exactly [N] copies. *)
Theorem get_batch_records_multiset (batch_size : Z) (shuffle : bool)
    (repeats : Z) (src : Dataset Raw) (ds : Dataset (list Rec))
    (rs : list Raw) (prs : list Rec) (e : Entropy) :
  get_dataset self shuffle = Ok src →
  (∀ e', ∃ l, drains src (make_iterator src e') l ∧ l ≡ₚ rs) →
  mapR (get_preprocess_fn self) rs = Ok prs →
  get_batch self batch_size shuffle repeats = Ok ds →
  (0 ≤ repeats)%Z →
  ∃ batches,
    drains ds (make_iterator ds e) batches ∧
    concat batches ⊆+ concat (replicate (Z.to_nat repeats) prs) ∧
    ((Z.to_nat repeats * length rs) `mod` Z.to_nat batch_size = 0 →
     concat batches ≡ₚ concat (replicate (Z.to_nat repeats) prs)).
Proof.
  intros Hsrc Hall Hpre Hds Hrep.
  apply get_batch_Ok in Hds as (src' & Hsrc' & Hpos & ->).
  assert (src' = src) as -> by congruence.
  pose proof (λ e', stage_passes self shuffle src rs prs e' Hall Hpre) as Hstage.
  simpl in Hstage. set (stage := if shuffle then _ else _) in *.
  destruct (batched_repeat_finite (λ p, p ≡ₚ prs) stage repeats
              (Z.to_nat batch_size) e Hrep ltac:(lia) Hstage)
    as (passes & Hn & HP & Hd).
  exists (chunks (Z.to_nat batch_size) (concat passes)).
  split; [exact Hd|].
  pose proof (concat_passes_perm prs passes HP) as Hperm. rewrite Hn in Hperm.
  rewrite chunks_concat by lia. split.
  - rewrite <-Hperm. apply sublist_submseteq, sublist_take.
  - intros Hdiv. rewrite <-Hperm, take_ge; [done|].
    assert (length (concat passes) = Z.to_nat repeats * length rs) as ->.
    { rewrite <-Hn, <-(mapR_Ok_length _ _ _ Hpre).
      apply concat_length_uniform.
      eapply Forall_impl; [exact HP|]. intros p Hp.
      by rewrite (Permutation_length Hp). }
    pose proof (Nat.div_mod_eq (Z.to_nat repeats * length rs)
                  (Z.to_nat batch_size)). lia.
Qed.
End Counting.

Lemma get_batch_number_of_batches_witness :
  length (elements
            (batch_dataset
               (repeat 3 (shuffle_dataset (Tf.map Ok AUTOTUNE (from_list [1; 2; 3]))
                            (Z.to_nat 10000)))
               true 2) seed0 9)
  = 9 `min` (Z.to_nat 3 * length [1; 2; 3] / Z.to_nat 2).
Proof.
  apply (get_batch_number_of_batches (list_provider [1; 2; 3]) 2 true 3
           (from_list [1; 2; 3]) _ [1; 2; 3] [1; 2; 3] seed0 9 eq_refl).
  - intros e'. exists [1; 2; 3]. split; [apply drains_from_list | done].
  - reflexivity.
  - reflexivity.
  - lia.
Defined.

Lemma get_batch_records_multiset_witness :
  let ds := batch_dataset
              (repeat 2 (shuffle_dataset (Tf.map Ok AUTOTUNE (from_list [1; 2; 3]))
                           (Z.to_nat 10000)))
              true 3 in
  ∃ batches,
    drains ds (make_iterator ds seed0) batches ∧
    concat batches ≡ₚ [1; 2; 3; 1; 2; 3].
Proof.
  intros ds.
  destruct (get_batch_records_multiset (list_provider [1; 2; 3]) 3 true 2
              (from_list [1; 2; 3]) ds [1; 2; 3] [1; 2; 3] seed0 eq_refl)
    as (batches & Hd & _ & Hperm).
  - intros e'. exists [1; 2; 3]. split; [apply drains_from_list | done].
  - reflexivity.
  - reflexivity.
  - lia.
  - exists batches. split; [exact Hd|]. apply Hperm. reflexivity.
Defined.

(** ** A record the preprocessing function rejects *)

Section Fails.
Context {A : Type}.
Implicit Types (d : Dataset A) (l : list A).

Lemma pull_fails d it l err n : fails d it l err → pull d n it = take n l.
Proof.
  intros H; revert n.
  induction H as [it e He | it a it' l e Hy _ IH]; intros [|n]; simpl;
    rewrite ?He, ?Hy; try done.
  by rewrite IH.
Qed.

Lemma fails_app_inv d it l1 l2 err :
  fails d it (l1 ++ l2) err → ∃ it', yields d it l1 it' ∧ fails d it' l2 err.
Proof.
  revert it; induction l1 as [|a l1 IH]; intros it; simpl.
  - intros H. exists it. split; [apply yields_nil | done].
  - inversion 1 as [|? ? it1 ? ? Hy Hrest]; subst.
    destruct (IH _ Hrest) as (it' & H1 & H2).
    exists it'. split; [by eapply yields_cons | done].
Qed.

Lemma map_fails_record {B} d (f : A → result B) (par : Z) it l it' r it''
    (out : list B) err :
  yields d it l it' → get_next d it' = Yield r it'' →
  mapR f l = Ok out → f r = Raise err →
  fails (Tf.map f par d) it out err.
Proof.
  intros H Hr; revert out.
  induction H as [it|it a it1 l it2 Hy _ IH]; intros out; simpl.
  - intros [= <-] Hf. apply fails_now. simpl. by rewrite Hr, Hf.
  - destruct (f a) as [b|] eqn:Hb; [|done]. simpl.
    destruct (mapR f l) as [bs|]; [|done]. simpl. intros [= <-] Hf.
    eapply fails_later; [|by apply IH]. simpl. by rewrite Hy, Hb.
Qed.

Lemma repeat_fails d (count : Z) e i it first l err :
  (count < 0 ∨ Z.of_nat i < count)%Z →
  fails d it l err →
  fails (repeat count d) (mkRepeatIter i it first e) l err.
Proof.
  intros Hc H; revert first.
  induction H as [it e' He | it a it' l e' Hy _ IH]; intros first.
  - apply fails_now. simpl. destruct (count <? 0)%Z eqn:Hneg.
    + unfold forever_next. simpl. by rewrite He.
    + replace (Z.to_nat count - i) with (S (Z.to_nat count - S i)) by lia.
      simpl. by rewrite He.
  - eapply fails_later; [|apply (IH false)].
    simpl. destruct (count <? 0)%Z eqn:Hneg.
    + unfold forever_next. simpl. by rewrite Hy.
    + replace (Z.to_nat count - i) with (S (Z.to_nat count - S i)) by lia.
      simpl. by rewrite Hy.
Qed.

Lemma collect_fails d drop n acc it l err :
  fails d it l err → length l < n → collect d drop n acc it = Fail err.
Proof.
  intros H; revert n acc.
  induction H as [it e He | it a it' l e Hy _ IH]; intros n acc Hn;
    (destruct n as [|n]; [simpl in Hn; lia|]); simpl.
  - by rewrite He.
  - rewrite Hy. apply IH. simpl in Hn. lia.
Qed.

(** The full batches before the exception are produced; the batch the
    exception falls into is not. *)
Lemma batch_fails d (dr : bool) n it l err :
  0 < n → fails d it l err →
  fails (batch_dataset d dr n) (Some it) (chunks n l) err.
Proof.
  intros Hn. remember (length l) as m eqn:Hm. revert it l Hm.
  induction (lt_wf m) as [m _ IH]; intros it l -> Hf.
  destruct (decide (n ≤ length l)) as [Hle|Hgt].
  - rewrite chunks_step by done.
    rewrite <-(take_drop n l) in Hf.
    apply fails_app_inv in Hf as (it1 & H1 & H2).
    eapply fails_later.
    + simpl. rewrite (collect_yields _ _ _ _ _ _ _ H1); [done|].
      rewrite length_take. lia.
    + eapply (IH (length (drop n l))); [|done|done]. rewrite length_drop. lia.
  - rewrite chunks_short by lia. apply fails_now. simpl.
    eapply collect_fails; [done|lia].
Qed.

Lemma fill_fails d room buf it l err :
  fails d it l err → length l < room → fill d room buf it = Raise err.
Proof.
  intros H; revert room buf.
  induction H as [it e He | it a it' l e Hy _ IH]; intros room buf Hn;
    (destruct room as [|room]; [simpl in Hn; lia|]); simpl.
  - by rewrite He.
  - rewrite Hy. apply IH. simpl in Hn. lia.
Qed.

(** A shuffling iterator fills its buffer before it produces anything, so
    an exception among the first [buffer_size] elements of the input is
    raised at once. *)
Lemma shuffle_fails d W e l err :
  fails d (make_iterator d (fork e 0)) l err → length l < W →
  fails (shuffle_dataset d W) (make_iterator (shuffle_dataset d W) e) [] err.
Proof.
  intros Hf Hl. apply fails_now. simpl. unfold shuffle_next. simpl.
  rewrite Nat.sub_0_r. by rewrite (fill_fails _ _ _ _ _ _ Hf Hl).
Qed.
End Fails.

Section BadRecord.
Context {Raw Rec : Type}.
Variable self : DataProvider Raw Rec.

(** X6.  Without shuffling, a record the preprocessing function rejects
    is not skipped: the full batches of the records before it are yielded,
    then the exception is raised, and nothing after it is ever yielded. *)
Theorem get_batch_bad_record_unshuffled (batch_size repeats : Z)
    (src : Dataset Raw) (ds : Dataset (list Rec)) (e : Entropy)
    (good : list Raw) (bad : Raw) (it' it'' : Iter src)
    (out : list Rec) (err : exn) :
  get_dataset self false = Ok src →
  yields src (make_iterator src (pass_seed false e 0)) good it' →
  get_next src it' = Yield bad it'' →
  mapR (get_preprocess_fn self) good = Ok out →
  get_preprocess_fn self bad = Raise err →
  repeats ≠ 0%Z →
  get_batch self batch_size false repeats = Ok ds →
  fails ds (make_iterator ds e) (chunks (Z.to_nat batch_size) out) err ∧
  ∀ n, elements ds e n = take n (chunks (Z.to_nat batch_size) out).
Proof.
  intros Hsrc Hgood Hbad Hout Herr Hrep Hds.
  apply get_batch_Ok in Hds as (src' & Hsrc' & Hpos & ->).
  assert (src' = src) as -> by congruence.
  set (records := Tf.map (get_preprocess_fn self) AUTOTUNE src).
  assert (fails (batch_dataset (repeat repeats records) true
                   (Z.to_nat batch_size))
            (make_iterator (batch_dataset (repeat repeats records) true
                              (Z.to_nat batch_size)) e)
            (chunks (Z.to_nat batch_size) out) err) as Hf.
  { apply (batch_fails (repeat repeats records) true _
             (make_iterator (repeat repeats records) e)); [lia|].
    apply (repeat_fails records); [lia|].
    by apply (map_fails_record src _ _ _ good it' bad it''). }
  split; [exact Hf|]. intros n. by apply (pull_fails _ _ _ err).
Qed.

(** X7.  With shuffling, a record the preprocessing function rejects
    among the first 10000 records of the source stops the pipeline before
    the first batch: the exception is raised at once and no record at all
    is yielded. *)
Theorem get_batch_bad_record_shuffled (batch_size repeats : Z)
    (src : Dataset Raw) (ds : Dataset (list Rec)) (e : Entropy)
    (good : list Raw) (bad : Raw) (it' it'' : Iter src)
    (out : list Rec) (err : exn) :
  get_dataset self true = Ok src →
  yields src (make_iterator src (pass_seed true e 0)) good it' →
  get_next src it' = Yield bad it'' →
  mapR (get_preprocess_fn self) good = Ok out →
  get_preprocess_fn self bad = Raise err →
  (Z.of_nat (length good) < 10000)%Z →
  repeats ≠ 0%Z →
  get_batch self batch_size true repeats = Ok ds →
  get_next ds (make_iterator ds e) = Fail err ∧
  ∀ n, elements ds e n = [].
Proof.
  intros Hsrc Hgood Hbad Hout Herr Hlen Hrep Hds.
  apply get_batch_Ok in Hds as (src' & Hsrc' & Hpos & ->).
  assert (src' = src) as -> by congruence.
  set (records := Tf.map (get_preprocess_fn self) AUTOTUNE src).
  set (shuffled := shuffle_dataset records (Z.to_nat 10000)).
  assert (fails (batch_dataset (repeat repeats shuffled) true
                   (Z.to_nat batch_size))
            (make_iterator (batch_dataset (repeat repeats shuffled) true
                              (Z.to_nat batch_size)) e)
            (chunks (Z.to_nat batch_size) []) err) as Hf.
  { apply (batch_fails (repeat repeats shuffled) true _
             (make_iterator (repeat repeats shuffled) e)); [lia|].
    apply (repeat_fails shuffled); [lia|].
    apply (shuffle_fails records _ (fork e 0) out).
    - by apply (map_fails_record src _ _ _ good it' bad it'').
    - rewrite (mapR_Ok_length _ _ _ Hout). lia. }
  rewrite chunks_short in Hf by (simpl; lia).
  split; [by inversion Hf|]. intros n.
  unfold elements. rewrite (pull_fails _ _ _ _ n Hf). by rewrite take_nil.
Qed.
End BadRecord.

Lemma get_batch_bad_record_unshuffled_witness :
  let ds := batch_dataset
              (repeat 1 (Tf.map (get_preprocess_fn (nonzero_provider []))
                           AUTOTUNE (from_list [1; 2; 3; 0; 5]%Z)))
              true 2 in
  fails ds (make_iterator ds seed0) (chunks (Z.to_nat 2) [1; 2; 3]%Z) ValueError ∧
  ∀ n, elements ds seed0 n = take n (chunks (Z.to_nat 2) [1; 2; 3]%Z).
Proof.
  intros ds.
  apply (get_batch_bad_record_unshuffled (nonzero_provider [1; 2; 3; 0; 5]%Z)
           2 1 (from_list [1; 2; 3; 0; 5]%Z) ds seed0 [1; 2; 3]%Z 0%Z
           [0; 5]%Z [5]%Z).
  - reflexivity.
  - repeat (eapply yields_cons; [reflexivity|]). apply yields_nil.
  - reflexivity.
  - reflexivity.
  - reflexivity.
  - discriminate.
  - reflexivity.
Defined.

Lemma get_batch_bad_record_shuffled_witness :
  let ds := batch_dataset
              (repeat (-1)
                 (shuffle_dataset
                    (Tf.map (get_preprocess_fn (nonzero_provider []))
                       AUTOTUNE (from_list [1; 2; 3; 0; 5]%Z))
                    (Z.to_nat 10000)))
              true 2 in
  get_next ds (make_iterator ds seed0) = Fail ValueError ∧
  ∀ n, elements ds seed0 n = [].
Proof.
  intros ds.
  apply (get_batch_bad_record_shuffled (nonzero_provider [1; 2; 3; 0; 5]%Z)
           2 (-1) (from_list [1; 2; 3; 0; 5]%Z) ds seed0 [1; 2; 3]%Z 0%Z
           [0; 5]%Z [5]%Z [1; 2; 3]%Z).
  - reflexivity.
  - repeat (eapply yields_cons; [reflexivity|]). apply yields_nil.
  - reflexivity.
  - reflexivity.
  - reflexivity.
  - simpl. lia.
  - discriminate.
  - reflexivity.
Defined.

(** ** The record-file providers *)

(** X8.  The constructor of [TFRecordProvider] keeps a non-empty
    [file_pattern] as given, without looking at the default; a pattern
    that is missing or the empty string is replaced by the class's
    default, and the constructor raises what the default raises.  The
    files then read are those [list_files] gives for the kept pattern,
    with the shuffle flag passed on, interleaved 40 at a time. *)
Theorem TFRecordProvider_init_pattern (c : TFRecordClass)
    (list_files : string → bool → Dataset string)
    (TFRecordDataset : string → Dataset string)
    (interleave :
       (string → Dataset string) → Z → Z → Dataset string → Dataset string) :
  (∀ p shuffle,
     p ≠ "" →
     ∃ self, TFRecordProvider_init c (Some p) = Ok self ∧
             cls self = c ∧ file_pattern self = p ∧
             TFRecordProvider_get_dataset list_files TFRecordDataset interleave
               self shuffle
             = Ok (interleave TFRecordDataset 40%Z AUTOTUNE (list_files p shuffle))) ∧
  (∀ given d,
     given = None ∨ given = Some "" →
     default_file_pattern c = Ok d →
     TFRecordProvider_init c given = Ok (mkTFRecordProvider c d)) ∧
  (∀ given err,
     given = None ∨ given = Some "" →
     default_file_pattern c = Raise err →
     TFRecordProvider_init c given = Raise err).
Proof.
  split; [|split].
  - intros p shuffle Hp. exists (mkTFRecordProvider c p).
    unfold TFRecordProvider_init. by rewrite bool_decide_false.
  - intros given d [-> | ->] Hd; unfold TFRecordProvider_init; simpl;
      by rewrite Hd.
  - intros given err [-> | ->] Hd; unfold TFRecordProvider_init; simpl;
      by rewrite Hd.
Qed.

Lemma TFRecordProvider_init_pattern_witness :
  TFRecordProvider_init SoloInstrument_class (Some "") = Raise NotImplementedError ∧
  TFRecordProvider_init SoloInstrument_class (Some "solo/*.tfrecord")
  = Ok (mkTFRecordProvider SoloInstrument_class "solo/*.tfrecord").
Proof.
  pose proof (TFRecordProvider_init_pattern SoloInstrument_class
                (fun _ _ => from_list []) (fun _ => from_list [])
                (fun _ _ _ d => d)) as (H1 & _ & H3).
  split.
  - apply (H3 (Some "") NotImplementedError); [by right | reflexivity].
  - destruct (H1 "solo/*.tfrecord" true) as (self & Hself & Hc & Hp & _);
      [discriminate|].
    rewrite Hself. f_equal. destruct self; simpl in *. by subst.
Defined.

(** X9.  The features the base class [TFRecordProvider] declares have an
    unknown dimension, so its parse function raises [ValueError] on every
    argument list that has a last argument, whatever the record; on no
    arguments at all it raises [IndexError]. *)
Theorem TFRecordProvider_base_cannot_parse (decode : string → option Example)
    (pattern : string) :
  let self := mkTFRecordProvider TFRecordProvider_class pattern in
  (∀ args record, last args = Some record →
                  parse_tfexample decode self args = Raise ValueError) ∧
  parse_tfexample decode self [] = Raise IndexError.
Proof.
  intros self. split; [|done].
  intros args record Hlast. unfold parse_tfexample, last_arg. by rewrite Hlast.
Qed.

Lemma TFRecordProvider_base_cannot_parse_witness :
  parse_tfexample (fun _ => Some example_solo)
    (mkTFRecordProvider TFRecordProvider_class "*.tfrecord")
    [StringTensor "rec"]
  = Raise ValueError.
Proof.
  apply (proj1 (TFRecordProvider_base_cannot_parse (fun _ => Some example_solo)
                  "*.tfrecord") [StringTensor "rec"] (StringTensor "rec")).
  reflexivity.
Defined.

Lemma parse_dense_float ex key (values : list float32) (n : Z) :
  ex !! key = Some (FloatList values) → Z.of_nat (length values) = n →
  parse_dense ex key [n] DT_FLOAT = Ok (mkTensor [n] (FloatList values)).
Proof.
  intros Hk Hn. unfold parse_dense. rewrite Hk. simpl.
  unfold num_elements. simpl. rewrite Z.mul_1_r.
  by destruct (Z.eqb_spec (Z.of_nat (length values)) n).
Qed.

Lemma parse_dense_float_Ok ex key (n : Z) v :
  parse_dense ex key [n] DT_FLOAT = Ok v →
  ∃ values, ex !! key = Some (FloatList values) ∧
            Z.of_nat (length values) = n ∧ v = mkTensor [n] (FloatList values).
Proof.
  intros (f & Hf & Ht & Hn & ->)%parse_dense_Ok.
  destruct f as [|values|]; try done.
  exists values. split; [done|]. split; [|done].
  unfold num_elements in Hn. simpl in Hn. lia.
Qed.

(** X10.  The preprocessing function of [SoloInstrument] accepts a record
    exactly when it decodes to an example whose features [audio],
    [f0_hz], [f0_confidence] and [loudness_db] are float lists of 64000,
    1000, 1000 and 1000 values; the result then holds these four tensors,
    in this order, and nothing of any other feature of the record. *)
Theorem solo_instrument_parse_accepts (decode : string → option Example)
    (list_files : string → bool → Dataset string)
    (TFRecordDataset : string → Dataset string)
    (interleave :
       (string → Dataset string) → Z → Z → Dataset string → Dataset string)
    (pattern record : string) (parsed : list (string * Tensor)) :
  get_preprocess_fn
    (TFRecordProvider_provider decode list_files TFRecordDataset interleave
       (mkTFRecordProvider SoloInstrument_class pattern)) record
  = Ok parsed ↔
  ∃ ex audio f0_hz f0_confidence loudness_db,
    decode record = Some ex ∧
    ex !! "audio" = Some (FloatList audio) ∧
    ex !! "f0_hz" = Some (FloatList f0_hz) ∧
    ex !! "f0_confidence" = Some (FloatList f0_confidence) ∧
    ex !! "loudness_db" = Some (FloatList loudness_db) ∧
    Z.of_nat (length audio) = 64000%Z ∧
    Z.of_nat (length f0_hz) = 1000%Z ∧
    Z.of_nat (length f0_confidence) = 1000%Z ∧
    Z.of_nat (length loudness_db) = 1000%Z ∧
    parsed = [("audio", mkTensor [64000%Z] (FloatList audio));
              ("f0_hz", mkTensor [1000%Z] (FloatList f0_hz));
              ("f0_confidence", mkTensor [1000%Z] (FloatList f0_confidence));
              ("loudness_db", mkTensor [1000%Z] (FloatList loudness_db))].
Proof.
  simpl. unfold parse_tfexample, parse_single_example. simpl cls.
  rewrite check_features_SoloInstrument. simpl. split.
  - destruct (decode record) as [ex|]; [|done]. simpl.
    destruct (parse_dense ex "audio" _ _) as [v1|] eqn:H1; [|done]. simpl.
    destruct (parse_dense ex "f0_hz" _ _) as [v2|] eqn:H2; [|done]. simpl.
    destruct (parse_dense ex "f0_confidence" _ _) as [v3|] eqn:H3; [|done].
    simpl.
    destruct (parse_dense ex "loudness_db" _ _) as [v4|] eqn:H4; [|done].
    simpl. intros [= <-].
    apply parse_dense_float_Ok in H1 as (a & Ha & Hla & ->).
    apply parse_dense_float_Ok in H2 as (h & Hh & Hlh & ->).
    apply parse_dense_float_Ok in H3 as (c & Hc & Hlc & ->).
    apply parse_dense_float_Ok in H4 as (l & Hl & Hll & ->).
    by exists ex, a, h, c, l.
  - intros (ex & a & h & c & l & -> & Ha & Hh & Hc & Hl & Hla & Hlh & Hlc & Hll & ->).
    simpl.
    rewrite (parse_dense_float ex "audio" a), (parse_dense_float ex "f0_hz" h),
      (parse_dense_float ex "f0_confidence" c),
      (parse_dense_float ex "loudness_db" l); done.
Qed.

Lemma solo_instrument_parse_accepts_witness :
  ∃ parsed,
    get_preprocess_fn
      (TFRecordProvider_provider (fun _ => Some example_solo)
         (fun _ _ => from_list []) (fun _ => from_list []) (fun _ _ _ d => d)
         (mkTFRecordProvider SoloInstrument_class "*.tfrecord")) "rec"
    = Ok parsed ∧ length parsed = 4.
Proof.
  eexists. split.
  - apply (proj2 (solo_instrument_parse_accepts (fun _ => Some example_solo)
                    (fun _ _ => from_list []) (fun _ => from_list [])
                    (fun _ _ _ d => d) "*.tfrecord" "rec" _)).
    exists example_solo, (replicate (Z.to_nat 64000) 0%Z),
      (replicate (Z.to_nat 1000) 1%Z), (replicate (Z.to_nat 1000) 2%Z),
      (replicate (Z.to_nat 1000) 3%Z).
    repeat split; try (vm_compute; reflexivity).
  - reflexivity.
Defined.

(** ** The catalogue providers *)

Lemma mapR_ext {A B} (f g : A → result B) (l : list A) :
  (∀ a, a ∈ l → f a = g a) → mapR f l = mapR g l.
Proof.
  induction l as [|a l IH]; intros Hfg; simpl; [done|].
  rewrite (Hfg a) by apply list_elem_of_here.
  rewrite IH; [done|]. intros b Hb. apply Hfg. by apply list_elem_of_further.
Qed.

(** X11.  The preprocessing function of [NSynthTfds] reads the eight
    expected paths of a record and nothing else: two records that agree
    on these paths, whatever else they hold, give the same result, also
    when the result is an exception. *)
Theorem nsynth_preprocess_reads_only_expected_paths {T} (ex1 ex2 : pyval T) :
  (∀ path, path ∈ expected_paths → lookup_path ex1 path = lookup_path ex2 path) →
  preprocess_ex ex1 = preprocess_ex ex2.
Proof.
  intros Hagree. rewrite !preprocess_ex_select_fields. unfold select_fields.
  by rewrite (mapR_ext _ (lookup_path ex2) _ Hagree).
Qed.

Lemma nsynth_preprocess_reads_only_expected_paths_witness :
  preprocess_ex (example_nsynth 1) = preprocess_ex (example_nsynth 2).
Proof.
  apply nsynth_preprocess_reads_only_expected_paths.
  intros path Hpath. unfold expected_paths in Hpath.
  repeat (apply elem_of_cons in Hpath as [-> | Hpath]; [reflexivity|]).
  by apply elem_of_nil in Hpath.
Defined.

(** X12.  A flattened record is not itself an NSynth record: applied to
    its own result, the preprocessing function always raises (the nested
    [f0] dictionary is gone, and [instrument] now holds the label). *)
Theorem nsynth_preprocess_not_twice {T} (ex out : pyval T) :
  preprocess_ex ex = Ok out → ∃ err, preprocess_ex out = Raise err.
Proof.
  rewrite preprocess_ex_select_fields. unfold select_fields.
  destruct (mapR (lookup_path ex) expected_paths) as [vs|] eqn:E; [|done].
  simpl. intros [= <-]. apply mapR_Ok_length in E.
  do 8 (destruct vs as [|? vs]; [done|]). destruct vs; [|done].
  unfold preprocess_ex, flat_keys. cbn.
  match goal with |- context [subscript ?label "source"] =>
    destruct label as [t|items] end; simpl; [by eexists|].
  destruct (assoc "source" items); simpl; [|by eexists].
  destruct (assoc "family" items); simpl; [|by eexists].
  destruct (assoc "label" items); simpl; [|by eexists].
  by eexists.
Qed.

Lemma nsynth_preprocess_not_twice_witness :
  ∃ err,
    preprocess_ex
      (PDict [("pitch", PTensor 60%Z); ("audio", PTensor 0%Z);
              ("instrument_source", PTensor 1%Z);
              ("instrument_family", PTensor 3%Z); ("instrument", PTensor 2%Z);
              ("f0_hz", PTensor 440%Z); ("f0_confidence", PTensor 1%Z);
              ("loudness_db", PTensor (-20)%Z)])
    = Raise err.
Proof.
  apply (nsynth_preprocess_not_twice (example_nsynth 1)). reflexivity.
Defined.

(** X13.  [get_batch] on an [NSynthTfds] provider asks the catalogue one
    thing only: the provider's name, directory and split, with the
    shuffle flag as [shuffle_files] and with [download] off.  Two
    catalogues that answer this one query alike give the same result. *)
Theorem nsynth_get_batch_catalogue_query {T}
    (load1 load2 :
       string → string → string → bool → bool → result (Dataset (pyval T)))
    (self : TfdsProvider) (batch_size : Z) (shuffle : bool) (repeats : Z) :
  load1 (name self) (data_dir self) (split self) shuffle false
  = load2 (name self) (data_dir self) (split self) shuffle false →
  get_batch (NSynthTfds load1 self) batch_size shuffle repeats
  = get_batch (NSynthTfds load2 self) batch_size shuffle repeats.
Proof.
  intros Hq. unfold get_batch, NSynthTfds, TfdsProvider_get_dataset. simpl.
  by rewrite Hq.
Qed.

Lemma nsynth_get_batch_catalogue_query_witness :
  get_batch
    (NSynthTfds (fun _ _ _ _ download =>
                   if download then Ok (from_list [example_nsynth 1])
                   else Raise (IOError "nsynth"))
       NSynthTfds_default) 4 true (-1)
  = get_batch
      (NSynthTfds (fun _ _ _ _ _ => Raise (IOError "nsynth")) NSynthTfds_default)
      4 true (-1).
Proof.
  apply nsynth_get_batch_catalogue_query. reflexivity.
Defined.

(** * Further properties of the run dispatcher *)

Section GinMore.
Variable registered : string → bool.
Variable files : gmap string string.

Lemma stmt_layer_registered line k v :
  stmt_layer registered line !! k = Some v → registered k = true.
Proof.
  unfold stmt_layer. destruct (Gin.parse_statement line) as [|key value|];
    [done| |done].
  destruct (registered key) eqn:Hreg; [|done].
  intros [<- _]%lookup_singleton_Some. done.
Qed.

Lemma layer_of_lines_registered ls k v :
  layer_of_lines registered ls !! k = Some v → registered k = true.
Proof.
  induction ls as [|l ls IH]; simpl; [done|].
  intros [H | [_ H]]%lookup_union_Some_raw; [by apply IH|].
  by eapply stmt_layer_registered.
Qed.

Lemma file_layer_registered prefixes f k v :
  file_layer registered files prefixes f !! k = Some v → registered k = true.
Proof.
  unfold file_layer. destruct (Gin.find_file files prefixes f); [|done].
  apply layer_of_lines_registered.
Qed.

Lemma files_layer_registered prefixes fs k v :
  files_layer registered files prefixes fs !! k = Some v → registered k = true.
Proof.
  induction fs as [|f fs IH]; simpl; [done|].
  intros [H | [_ H]]%lookup_union_Some_raw; [by apply IH|].
  by eapply file_layer_registered.
Qed.

Lemma parse_config_cumsum_registered (use_tpu : bool) c c' :
  Gin.parse_config registered
    ("ddsp.core.cumsum.use_tpu=" +:+ Str.format_bool use_tpu) false c = Ok c' →
  registered "ddsp.core.cumsum.use_tpu" = true.
Proof.
  unfold Gin.parse_config. intros H.
  assert (Str.lines ("ddsp.core.cumsum.use_tpu=" +:+ Str.format_bool use_tpu)
          = ["ddsp.core.cumsum.use_tpu=" +:+ Str.format_bool use_tpu]) as Hlines
    by (by destruct use_tpu).
  assert (Gin.parse_statement
            ("ddsp.core.cumsum.use_tpu=" +:+ Str.format_bool use_tpu)
          = Gin.Binding "ddsp.core.cumsum.use_tpu" (Str.format_bool use_tpu))
    as Hstmt by (by destruct use_tpu).
  rewrite Hlines in H. simpl in H.
  unfold Gin.parse_line, Gin.bind_parameter in H. rewrite Hstmt in H.
  simpl in H. destruct (registered "ddsp.core.cumsum.use_tpu"); [done|].
  by destruct (Gin.locked c).
Qed.
End GinMore.

Section RunMore.
Import DdspRun Str.
Context {Provider Model : Type}.
Variable FLAGS : Flags.
Variable GIN_PATH : string.
Variable registered : string → bool.
Variable files : gmap string string.
Variable expanduser : string → string.
Variable get_model : gmap string string → result Model.
Variable construct : string → result Provider.

(** X14.  [delay_start] does nothing when no delay is configured or the
    delay is zero; for a positive delay it logs once and sleeps once, for
    exactly that long; a negative delay is logged and then rejected by
    [time.sleep].  The configuration is never touched. *)
Theorem delay_start_effect (w : @World Provider Model) :
  (∀ secs, initial_delay_secs FLAGS = Some secs → (secs < 0)%Z →
           delay_start FLAGS w = Raise ValueError) ∧
  ((∀ secs, initial_delay_secs FLAGS = Some secs → (0 ≤ secs)%Z) →
   delay_start FLAGS w
   = Ok (tt, mkWorld (gin w)
               (calls w ++ delay_calls (initial_delay_secs FLAGS)))).
Proof.
  unfold delay_start, delay_calls. destruct w as [c cs].
  destruct (initial_delay_secs FLAGS) as [secs|]; simpl.
  - split.
    + intros ? [= <-] Hneg. rewrite bool_decide_false by lia.
      unfold mbind, M_bind, bind, log, raise. simpl.
      by rewrite bool_decide_true by lia.
    + intros Hpos. specialize (Hpos secs eq_refl).
      destruct (bool_decide (secs = 0%Z)) eqn:Hz.
      * unfold ret. by rewrite app_nil_r.
      * unfold mbind, M_bind, bind, log, raise. simpl.
        rewrite bool_decide_false by lia. simpl.
        by rewrite <-(assoc_L (++)).
  - split; [done|]. intros _. unfold ret. by rewrite app_nil_r.
Qed.

(** X15.  [parse_gin] appends the packaged directory and then the user's
    directories, in the order given, to gin's search path, and leaves the
    configuration locked or unlocked as it found it. *)
Theorem parse_gin_search_path_and_lock (model_dir : string)
    (w w' : @World Provider Model) (u : unit) :
  parse_gin FLAGS GIN_PATH registered files model_dir w = Ok (u, w') →
  Gin.search_path (gin w')
  = Gin.search_path (gin w) ++ GIN_PATH :: gin_search_path FLAGS ∧
  Gin.locked (gin w') = Gin.locked (gin w).
Proof. by intros (_ & _ & Hs & Hl)%parse_gin_Ok. Qed.


(** X17.  When the packaged optimizer defaults are found nowhere along the
    search path, [parse_gin] raises [IOError] for that file, before the
    snapshot or any user file is read. *)
Theorem parse_gin_defaults_missing (model_dir : string)
    (w : @World Provider Model) :
  let opt_default :=
    if use_tpu FLAGS then "optimization/base_tpu.gin"
    else "optimization/base.gin" in
  Gin.find_file files
    ("" :: Gin.search_path (gin w) ++ GIN_PATH :: gin_search_path FLAGS)
    opt_default = None →
  parse_gin FLAGS GIN_PATH registered files model_dir w
  = Raise (IOError opt_default).
Proof.
  intros opt_default Hfind. unfold parse_gin.
  unfold mbind at 1, M_bind at 1, bind at 1.
  rewrite for_each_search_path. unfold with_unlock_config. simpl.
  unfold gin_parse_config_file.
  unfold mbind at 1, M_bind at 1, bind at 1.
  unfold mbind at 1, M_bind at 1, bind at 1. simpl.
  unfold on_gin, Gin.parse_config_file. simpl.
  assert (os_path_join "optimization"
            (if use_tpu FLAGS then "base_tpu.gin" else "base.gin")
          = opt_default) as -> by (unfold opt_default; by destruct (use_tpu FLAGS)).
  simpl in Hfind. by rewrite Hfind.
Qed.
End RunMore.

Section RunMore2.
Import DdspRun Str.
Context {Provider Model : Type}.
Variable FLAGS : Flags.
Variable GIN_PATH : string.
Variable registered : string → bool.
Variable files : gmap string string.
Variable expanduser : string → string.
Variable get_model : gmap string string → result Model.
Variable construct : string → result Provider.

Lemma parse_gin_cumsum_registered (model_dir : string)
    (w w' : @World Provider Model) (u : unit) :
  parse_gin FLAGS GIN_PATH registered files model_dir w = Ok (u, w') →
  registered "ddsp.core.cumsum.use_tpu" = true.
Proof.
  unfold parse_gin. rewrite bind_Ok. intros ([] & w1 & Hpaths & Hbody).
  unfold with_unlock_config in Hbody.
  match type of Hbody with
  | match ?body ?w0 with _ => _ end = _ =>
      destruct (body w0) as [[[] w2]|] eqn:Hb; [|done]
  end.
  unfold gin_parse_config_file, gin_parse_config in Hb.
  apply bind_Ok in Hb as ([] & w3 & _ & Hb).
  apply bind_Ok in Hb as ([] & w4 & _ & Hb).
  apply bind_Ok in Hb as ([] & w5 & H3 & _).
  apply logged_gin_Ok in H3 as (c3 & H3 & _).
  by eapply parse_config_cumsum_registered.
Qed.

(** X18.  [parse_gin] only ever binds parameters of registered
    configurables: a key whose binding it changed or added is
    registered. *)
Theorem parse_gin_binds_registered_only (model_dir : string)
    (w w' : @World Provider Model) (u : unit) (key : string) :
  parse_gin FLAGS GIN_PATH registered files model_dir w = Ok (u, w') →
  Gin.bindings (gin w') !! key ≠ Gin.bindings (gin w) !! key →
  registered key = true.
Proof.
  intros Hgin Hchanged.
  pose proof (parse_gin_cumsum_registered _ _ _ _ Hgin) as Hcumsum.
  apply parse_gin_Ok in Hgin as (_ & Hb & _).
  rewrite Hb in Hchanged. unfold parse_gin_bindings in Hchanged.
  destruct ((layer_of_lines registered (gin_param FLAGS ≫= lines)
             ∪ files_layer registered files
                 ("" :: Gin.search_path (gin w) ++
                  GIN_PATH :: gin_search_path FLAGS) (gin_file FLAGS))
            !! key) as [v|] eqn:Huser.
  { apply lookup_union_Some_raw in Huser as [H | [_ H]];
      [by eapply layer_of_lines_registered | by eapply files_layer_registered]. }
  rewrite lookup_union_r in Hchanged by done.
  destruct (decide (key = "ddsp.core.cumsum.use_tpu")) as [->|Hne]; [done|].
  rewrite lookup_union_r in Hchanged by (by apply lookup_singleton_ne).
  match type of Hchanged with
  | (?snap ∪ _) !! _ ≠ _ => destruct (snap !! key) as [v|] eqn:Hsnap
  end.
  { destruct (bool_decide _); [by eapply file_layer_registered | done]. }
  rewrite lookup_union_r in Hchanged by done.
  match type of Hchanged with
  | (?def ∪ _) !! _ ≠ _ => destruct (def !! key) as [v|] eqn:Hdef
  end.
  { by eapply file_layer_registered. }
  by rewrite lookup_union_r in Hchanged by done.
Qed.

Lemma delay_start_Ok (w : @World Provider Model) :
  (∀ secs, initial_delay_secs FLAGS = Some secs → (0 ≤ secs)%Z) →
  delay_start FLAGS w
  = Ok (tt, mkWorld (gin w)
              (calls w ++ delay_calls (initial_delay_secs FLAGS))).
Proof.
  unfold delay_start, delay_calls. destruct w as [c cs].
  destruct (initial_delay_secs FLAGS) as [secs|]; simpl.
  - intros Hpos. specialize (Hpos secs eq_refl).
    destruct (bool_decide (secs = 0%Z)) eqn:Hz.
    + unfold ret. by rewrite app_nil_r.
    + unfold mbind, M_bind, bind, log, raise. simpl.
      rewrite bool_decide_false by lia. simpl. by rewrite <-(assoc_L (++)).
  - intros _. unfold ret. by rewrite app_nil_r.
Qed.

(** X19.  In mode [eval], once the configuration is read, the model
    resolves and a data provider is bound, [run] first makes the
    configured delay and then calls the evaluation routine exactly once,
    with the model, the expanded model directory, the [master] flag and
    [eval_once] as the run-once flag; nothing else is called after the
    configuration is read. *)
Theorem run_eval_calls_evaluate_once (w w1 : @World Provider Model)
    (model : Model) (value : string) (data_provider : Provider) :
  mode FLAGS = eval →
  parse_gin FLAGS GIN_PATH registered files (expanduser (model_dir FLAGS)) w
  = Ok (tt, w1) →
  get_model (Gin.bindings (gin w1)) = Ok model →
  Gin.bindings (gin w1) !! "evaluate.data_provider" = Some value →
  construct value = Ok data_provider →
  (∀ secs, initial_delay_secs FLAGS = Some secs → (0 ≤ secs)%Z) →
  run FLAGS GIN_PATH registered files expanduser get_model construct w
  = Ok (tt, mkWorld (gin w1)
              (calls w1 ++ delay_calls (initial_delay_secs FLAGS) ++
               [Evaluate data_provider model (expanduser (model_dir FLAGS))
                  (master FLAGS) (eval_once FLAGS)])).
Proof.
  intros Hmode Hgin Hmodel Hbound Hcons Hdelay.
  unfold run. rewrite Hmode.
  unfold mbind at 1, M_bind at 1, bind at 1. rewrite Hgin.
  unfold mbind at 1, M_bind at 1, bind at 1.
  unfold models_get_model, get_gin, lift.
  unfold mbind at 1, M_bind at 1, bind at 1. rewrite Hmodel.
  unfold mbind at 1, M_bind at 1, bind at 1.
  rewrite (delay_start_Ok w1 Hdelay).
  unfold eval_util_evaluate, gin_required, get_gin, lift, raise, log,
    mbind, M_bind, bind. simpl.
  change ("evaluate" +:+ "." +:+ "data_provider") with "evaluate.data_provider".
  rewrite Hbound, Hcons. simpl. by rewrite <-(assoc_L (++)).
Qed.

(** X20.  In mode [sample], likewise: the configured delay, then the
    sampling routine exactly once with the same arguments, and nothing
    else. *)
Theorem run_sample_calls_sample_once (w w1 : @World Provider Model)
    (model : Model) (value : string) (data_provider : Provider) :
  mode FLAGS = sample →
  parse_gin FLAGS GIN_PATH registered files (expanduser (model_dir FLAGS)) w
  = Ok (tt, w1) →
  get_model (Gin.bindings (gin w1)) = Ok model →
  Gin.bindings (gin w1) !! "sample.data_provider" = Some value →
  construct value = Ok data_provider →
  (∀ secs, initial_delay_secs FLAGS = Some secs → (0 ≤ secs)%Z) →
  run FLAGS GIN_PATH registered files expanduser get_model construct w
  = Ok (tt, mkWorld (gin w1)
              (calls w1 ++ delay_calls (initial_delay_secs FLAGS) ++
               [Sample data_provider model (expanduser (model_dir FLAGS))
                  (master FLAGS) (eval_once FLAGS)])).
Proof.
  intros Hmode Hgin Hmodel Hbound Hcons Hdelay.
  unfold run. rewrite Hmode.
  unfold mbind at 1, M_bind at 1, bind at 1. rewrite Hgin.
  unfold mbind at 1, M_bind at 1, bind at 1.
  unfold models_get_model, get_gin, lift.
  unfold mbind at 1, M_bind at 1, bind at 1. rewrite Hmodel.
  unfold mbind at 1, M_bind at 1, bind at 1.
  rewrite (delay_start_Ok w1 Hdelay).
  unfold eval_util_sample, gin_required, get_gin, lift, raise, log,
    mbind, M_bind, bind. simpl.
  change ("sample" +:+ "." +:+ "data_provider") with "sample.data_provider".
  rewrite Hbound, Hcons. simpl. by rewrite <-(assoc_L (++)).
Qed.

(** X21.  In every mode, [run] reads the configuration and resolves the
    model before anything else: an exception of [parse_gin] or of
    [models.get_model] is the exception of [run], and no routine is
    reached. *)
Theorem run_configuration_errors (w : @World Provider Model) (err : exn) :
  (parse_gin FLAGS GIN_PATH registered files (expanduser (model_dir FLAGS)) w
   = Raise err →
   run FLAGS GIN_PATH registered files expanduser get_model construct w
   = Raise err) ∧
  (∀ w1,
     parse_gin FLAGS GIN_PATH registered files (expanduser (model_dir FLAGS)) w
     = Ok (tt, w1) →
     get_model (Gin.bindings (gin w1)) = Raise err →
     run FLAGS GIN_PATH registered files expanduser get_model construct w
     = Raise err).
Proof.
  split.
  - intros Hgin. unfold run.
    unfold mbind at 1, M_bind at 1, bind at 1. by rewrite Hgin.
  - intros w1 Hgin Hmodel. unfold run.
    unfold mbind at 1, M_bind at 1, bind at 1. rewrite Hgin.
    unfold mbind at 1, M_bind at 1, bind at 1.
    unfold models_get_model, get_gin, lift.
    unfold mbind at 1, M_bind at 1, bind at 1. by rewrite Hmodel.
Qed.
End RunMore2.

Lemma delay_start_effect_witness :
  DdspRun.delay_start (example_job_flags DdspRun.eval) example_world
  = Ok (tt, DdspRun.mkWorld Gin.initial [DdspRun.LogInfo; DdspRun.Sleep 5%Z]).
Proof.
  apply (proj2 (delay_start_effect (example_job_flags DdspRun.eval)
                  example_world)).
  intros secs [= <-]. lia.
Defined.

Lemma parse_gin_search_path_and_lock_witness :
  ∃ w' : @DdspRun.World string string,
    DdspRun.parse_gin example_flags "gin" example_registered example_files
      "/home/u/tmp/ddsp" example_world = Ok (tt, w') ∧
    Gin.search_path (DdspRun.gin w') = ["gin"] ∧
    Gin.locked (DdspRun.gin w') = false.
Proof.
  eexists. split; [vm_compute; reflexivity|].
  match goal with |- Gin.search_path (DdspRun.gin ?w1) = _ ∧ _ =>
    apply (parse_gin_search_path_and_lock example_flags "gin" example_registered
             example_files "/home/u/tmp/ddsp" example_world w1 tt)
  end.
  vm_compute. reflexivity.
Defined.


Lemma parse_gin_defaults_missing_witness :
  DdspRun.parse_gin example_flags "gin" example_registered ∅
    "/home/u/tmp/ddsp" example_world
  = Raise (IOError "optimization/base.gin").
Proof.
  apply (parse_gin_defaults_missing example_flags "gin" example_registered ∅
           "/home/u/tmp/ddsp" example_world).
  reflexivity.
Defined.

Lemma parse_gin_binds_registered_only_witness :
  example_registered "train.batch_size" = true.
Proof.
  eapply (parse_gin_binds_registered_only example_flags "gin" example_registered
            example_files "/home/u/tmp/ddsp" example_world _ tt
            "train.batch_size").
  - vm_compute. reflexivity.
  - vm_compute. discriminate.
Defined.

Lemma run_eval_calls_evaluate_once_witness :
  ∃ w1 : @DdspRun.World string string,
    DdspRun.run (example_job_flags DdspRun.eval) "gin" example_registered
      example_files example_expanduser (fun _ => Ok "autoencoder") Ok
      example_world
    = Ok (tt, DdspRun.mkWorld (DdspRun.gin w1)
                (DdspRun.calls w1 ++
                 [DdspRun.LogInfo; DdspRun.Sleep 5%Z;
                  DdspRun.Evaluate "@data.NSynthTfds()" "autoencoder"
                    "/home/u/tmp/ddsp" "" true])).
Proof.
  eexists.
  eapply (run_eval_calls_evaluate_once (example_job_flags DdspRun.eval) "gin"
            example_registered example_files example_expanduser
            (fun _ => Ok "autoencoder") Ok example_world).
  - reflexivity.
  - vm_compute. reflexivity.
  - reflexivity.
  - vm_compute. reflexivity.
  - reflexivity.
  - intros secs [= <-]. lia.
Defined.

Lemma run_sample_calls_sample_once_witness :
  ∃ w1 : @DdspRun.World string string,
    DdspRun.run (example_job_flags DdspRun.sample) "gin" example_registered
      example_files example_expanduser (fun _ => Ok "autoencoder") Ok
      example_world
    = Ok (tt, DdspRun.mkWorld (DdspRun.gin w1)
                (DdspRun.calls w1 ++
                 [DdspRun.LogInfo; DdspRun.Sleep 5%Z;
                  DdspRun.Sample "@data.NSynthTfds()" "autoencoder"
                    "/home/u/tmp/ddsp" "" true])).
Proof.
  eexists.
  eapply (run_sample_calls_sample_once (example_job_flags DdspRun.sample) "gin"
            example_registered example_files example_expanduser
            (fun _ => Ok "autoencoder") Ok example_world).
  - reflexivity.
  - vm_compute. reflexivity.
  - reflexivity.
  - vm_compute. reflexivity.
  - reflexivity.
  - intros secs [= <-]. lia.
Defined.

Lemma run_configuration_errors_witness :
  DdspRun.run (Provider:=string) (Model:=string) example_flags "gin"
    example_registered ∅ example_expanduser (fun _ => Ok "autoencoder") Ok
    example_world
  = Raise (IOError "optimization/base.gin").
Proof.
  apply (proj1 (run_configuration_errors example_flags "gin" example_registered
                  ∅ example_expanduser (fun _ => Ok "autoencoder") Ok
                  example_world (IOError "optimization/base.gin"))).
  vm_compute. reflexivity.
Defined.
